(** * PrivateBlockchain: the Blockchain class of src/blockchain.js

    A shallow embedding of the star-registry ledger.  The class keeps an
    array of blocks and a height counter, and every method is asynchronous:
    the methods run synchronously up to their first [await], and the rest of
    each body is a continuation placed on the JavaScript microtask queue.
    Several behaviours of the class depend on the order in which those
    continuations run (the error log of [validateChain] is filled by
    callbacks that are still pending when its promise resolves), so the
    embedding keeps the microtask queue explicit: a state holds the object
    fields, the arrays shared between callbacks, and the queue of pending
    continuations; [run_job] is one turn of the queue. *)

From Stdlib Require Import String Ascii List ZArith Lia Bool Arith.
From Stdlib Require Import DecimalString.
Import ListNotations.
Local Open Scope string_scope.
Local Open Scope list_scope.
Local Open Scope Z_scope.

(** ** Strings and numbers as the methods use them *)

(** [String.prototype.split] with a one-character separator. *)
Fixpoint split (sep : ascii) (s : string) : list string :=
  match s with
  | EmptyString => [EmptyString]
  | String c rest =>
      if Ascii.eqb c sep then EmptyString :: split sep rest
      else match split sep rest with
           | [] => [String c EmptyString]
           | w :: ws => String c w :: ws
           end
  end.

(** White space skipped by [parseInt]; a character stands for a code unit
    below 256, so of the Unicode space separators only U+00A0 occurs. *)
Definition isStrWhiteSpace (c : ascii) : bool :=
  let n := Z.of_N (N_of_ascii c) in
  ((9 <=? n) && (n <=? 13)) || (n =? 32) || (n =? 160).

Fixpoint skipWhiteSpace (s : string) : string :=
  match s with
  | String c rest => if isStrWhiteSpace c then skipWhiteSpace rest else s
  | EmptyString => s
  end.

(** Value of a character as a digit in the given radix, if it is one. *)
Definition digitValue (radix : Z) (c : ascii) : option Z :=
  let n := Z.of_N (N_of_ascii c) in
  let d := if (48 <=? n) && (n <=? 57) then n - 48
           else if (97 <=? n) && (n <=? 122) then n - 87
           else if (65 <=? n) && (n <=? 90) then n - 55
           else radix in
  if d <? radix then Some d else None.

Fixpoint digitsValue (radix acc : Z) (s : string) : Z :=
  match s with
  | String c rest =>
      match digitValue radix c with
      | Some d => digitsValue radix (acc * radix + d) rest
      | None => acc
      end
  | EmptyString => acc
  end.

(** [parseInt(x)] with the radix left out.  [None] is NaN.  The argument is
    [None] when [x] is [undefined]: its string form has no leading digit.
    The result is the integer the digits denote; the double the engine
    rounds it to orders against the clock reading in the same way. *)
Definition parseInt (x : option string) : option Z :=
  match x with
  | None => None
  | Some s =>
      let s1 := skipWhiteSpace s in
      let '(sign, s2) :=
        match s1 with
        | String "-" r => (-1, r)
        | String "+" r => (1, r)
        | _ => (1, s1)
        end in
      let '(radix, s3) :=
        match s2 with
        | String "0" (String "x" r) => (16, r)
        | String "0" (String "X" r) => (16, r)
        | _ => (10, s2)
        end in
      match s3 with
      | String c _ =>
          match digitValue radix c with
          | Some _ => Some (sign * digitsValue radix 0 s3)
          | None => None
          end
      | EmptyString => None
      end
  end.

(** ** Blocks *)

(** A star is an application-defined record of descriptive fields. *)
Definition Star := list (string * string).

(** The object handed to the Block constructor. *)
Inductive BodyData :=
| GenesisData                                      (* {data: 'Genesis Block'} *)
| StarData (walletAddress message signature : string) (star : Star).

Module Block.

(** The fields of a Block object.  [hash] and [previousBlockHash] are
    [null] or a string of hex digits; [time] holds the decimal digits of
    the epoch seconds and is stored here as the number they denote. *)
Record t := mk {
  hash : option string;
  height : Z;
  body : string;
  time : Z;
  previousBlockHash : option string
}.

Definition set_hash (v : option string) (b : t) : t :=
  mk v (height b) (body b) (time b) (previousBlockHash b).
Definition set_height (v : Z) (b : t) : t :=
  mk (hash b) v (body b) (time b) (previousBlockHash b).
Definition set_body (v : string) (b : t) : t :=
  mk (hash b) (height b) v (time b) (previousBlockHash b).
Definition set_time (v : Z) (b : t) : t :=
  mk (hash b) (height b) (body b) v (previousBlockHash b).
Definition set_previousBlockHash (v : option string) (b : t) : t :=
  mk (hash b) (height b) (body b) (time b) v.

End Block.

Definition option_string_eqb (a b : option string) : bool :=
  match a, b with
  | Some x, Some y => String.eqb x y
  | None, None => true
  | _, _ => false
  end.

(** ** Values the promises settle with *)

(** The two entries [validateChain] pushes on its error log. *)
Inductive ChainError :=
| BlockInvalid (h : Z)          (* {Error: `Block ${h} is invalid`} *)
| PreviousHashInvalid (h : Z).  (* {Error: `For Block ${h}, the PreviousBlock hash is invalid`} *)

(** What the promise of [_addBlock] is fulfilled with: the block object, or
    the string of the catch clause.  The promise is never rejected. *)
Inductive AddResult :=
| ReturnedBlock (b : Block.t)
| InvalidBlockString.            (* "Invalid block" *)

(** The errors [submitStar] rejects with. *)
Inductive SubmitError :=
| TimeExpired                    (* Error("Time expired (5 min)") *)
| ValidationError.               (* Error("Validation Error") *)

(** The error kinds of the specification. *)
Inductive ErrorKind :=
| ExpiredChallenge | InvalidSignature | MalformedMessage
| ChainIntegrityViolation | NotFound.

Definition kindOf (e : SubmitError) : ErrorKind :=
  match e with
  | TimeExpired => ExpiredChallenge
  | ValidationError => InvalidSignature
  end.

(** State of a promise seen from outside. *)
Inductive Settled (A : Type) :=
| Fulfilled (v : A)
| Rejected (e : SubmitError)
| Pending.
Arguments Fulfilled {A} v.
Arguments Rejected {A} e.
Arguments Pending {A}.

(** The values the block queries handle: a block, an array of blocks,
    [undefined] and [null]. *)
Inductive QueryResult :=
| OneBlock (b : Block.t)
| BlockArray (bs : list Block.t)
| Undefined
| Null.

(** The test [if (v)]: objects and arrays, also the empty array, pass it;
    [undefined] and [null] do not. *)
Definition truthy (v : QueryResult) : bool :=
  match v with
  | OneBlock _ | BlockArray _ => true
  | Undefined | Null => false
  end.

(** ** The microtask queue *)

(** The continuations of the class, one constructor per [await]. *)
Inductive Job :=
| AddLinked (p : nat) (block : Block.t) (previousBlock : option Block.t)
    (* _addBlock, after [await this.getBlockByHeight(currentChainHeight)] *)
| AddValidated (p : nat) (block : Block.t) (errorLog : nat)
    (* _addBlock, after [await this.validateChain()] *)
| ValidateResumed (errorLog : nat) (block : Block.t) (valid : bool)
    (* validateChain callback, after [await block.validate()] *)
| LinkageResumed (errorLog : nat) (block : Block.t)
    (* validateChain callback, after [await self.getBlockByHeight(..).hash] *)
| StarsResumed (stars : nat) (body : option BodyData) (address : string).
    (* getStarsByWalletAddress callback, after [await block.getBData()] *)

(** A Blockchain object together with what its pending continuations share.
    [errorLogs] and [starLists] hold the arrays allocated by [validateChain]
    and [getStarsByWalletAddress], addressed by position; [promises] holds
    the promises of the [_addBlock] calls, each empty until the call
    returns and addressed by position as well; [verifyCalls]
    lists the arguments of every call of the signature check. *)
Record Blockchain := mkBlockchain {
  chain : list Block.t;
  height : Z;
  errorLogs : list (list ChainError);
  starLists : list (list Star);
  queue : list Job;
  promises : list (option AddResult);
  verifyCalls : list (string * string * string)
}.

Definition set_chain v st :=
  mkBlockchain v (height st) (errorLogs st) (starLists st) (queue st)
    (promises st) (verifyCalls st).
Definition set_height v st :=
  mkBlockchain (chain st) v (errorLogs st) (starLists st) (queue st)
    (promises st) (verifyCalls st).
Definition set_errorLogs v st :=
  mkBlockchain (chain st) (height st) v (starLists st) (queue st)
    (promises st) (verifyCalls st).
Definition set_starLists v st :=
  mkBlockchain (chain st) (height st) (errorLogs st) v (queue st)
    (promises st) (verifyCalls st).
Definition set_queue v st :=
  mkBlockchain (chain st) (height st) (errorLogs st) (starLists st) v
    (promises st) (verifyCalls st).
Definition set_promises v st :=
  mkBlockchain (chain st) (height st) (errorLogs st) (starLists st) (queue st)
    v (verifyCalls st).
Definition set_verifyCalls v st :=
  mkBlockchain (chain st) (height st) (errorLogs st) (starLists st) (queue st)
    (promises st) v.

Definition enqueue (j : Job) (st : Blockchain) : Blockchain :=
  set_queue (queue st ++ [j]) st.

(** [array.push(x)] on the array stored at position [i]. *)
Fixpoint pushAt {A} (i : nat) (x : A) (arrays : list (list A)) : list (list A) :=
  match arrays, i with
  | [], _ => []
  | a :: rest, O => (a ++ [x]) :: rest
  | a :: rest, S i' => a :: pushAt i' x rest
  end.

Definition arrayAt {A} (i : nat) (arrays : list (list A)) : list A :=
  nth i arrays [].

(** Storing [x] at position [i]. *)
Fixpoint setAt {A} (i : nat) (x : A) (l : list A) : list A :=
  match l, i with
  | [], _ => []
  | _ :: rest, O => x :: rest
  | a :: rest, S i' => a :: setAt i' x rest
  end.

(** An [_addBlock] call returns: its promise is fulfilled. *)
Definition fulfil (p : nat) (r : AddResult) (st : Blockchain) : Blockchain :=
  set_promises (setAt p (Some r) (promises st)) st.

(** ** The methods *)

(** [requestMessageOwnershipVerification(address)], lines 115-119: the
    address, the clock text and the tag, joined by colons.  [currentTime]
    is the text [new Date().getTime().toString().slice(0,-3)], the decimal
    digits of the epoch seconds. *)
Definition requestMessageOwnershipVerification (address currentTime : string)
  : string :=
  (address ++ ":" ++ currentTime ++ ":starRegistry")%string.

(** Decimal digits, and the number a text of decimal digits denotes.  It
    is the number [submitStar] takes as its clock reading when the clock
    text is that text. *)
Definition isDigit (c : ascii) : bool :=
  let n := Z.of_N (N_of_ascii c) in (48 <=? n) && (n <=? 57).

Fixpoint allDigits (s : string) : bool :=
  match s with
  | String c rest => isDigit c && allDigits rest
  | EmptyString => true
  end.

Fixpoint hasColon (s : string) : bool :=
  match s with
  | String c rest => Ascii.eqb c ":" || hasColon rest
  | EmptyString => false
  end.

Definition secondsOf (currentTime : string) : Z := digitsValue 10 0 currentTime.

(** The promise was rejected with an error of the given kind. *)
Definition failsWith (k : ErrorKind) (pr : Settled AddResult) : Prop :=
  exists e, pr = Rejected e /\ kindOf e = k.

(** The services the class consumes: the digest of crypto-js, the
    serialisation of a block by [JSON.stringify], the body codec of the
    Block class, and the signature check of bitcoinjs-message, which returns
    a boolean or throws ([None]). *)
Class Services := {
  SHA256 : string -> string;
  stringify : Block.t -> string;
  encode : BodyData -> string;
  decode : string -> option BodyData;
  verify : string -> string -> string -> option bool
}.

Section Methods.

Context {services : Services}.

(** Modelled from the spec: the constructor of the Block class (block.js,
    absent).  The body is the encoded payload; the hash is absent until
    [_addBlock] computes it, and the other fields are assigned there. *)
Definition newBlock (data : BodyData) : Block.t :=
  Block.mk None 0 (encode data) 0 None.

(** Modelled from the spec: [Block.validate] (block.js, absent).  It
    recomputes the digest from the content without the stored hash and
    compares it with the stored hash; its promise is already settled when
    it is returned. *)
Definition validate (b : Block.t) : bool :=
  option_string_eqb (Block.hash b)
    (Some (SHA256 (stringify (Block.set_hash None b)))).

(** Modelled from the spec: [Block.getBData] (block.js, absent).  It
    decodes the body; a body that does not decode rejects the promise. *)
Definition getBData (b : Block.t) : option BodyData :=
  decode (Block.body b).

(** [getBlockByHeight(height)], lines 185-195: the first element of the
    filtered array, or [null] when there is none. *)
Definition getBlockByHeight (h : Z) (st : Blockchain) : QueryResult :=
  let block :=
    match filter (fun p => Block.height p =? h) (chain st) with
    | b :: _ => OneBlock b
    | [] => Undefined
    end in
  if truthy block then block else Null.

(** [getBlockByHash(hash)], lines 167-178: the filtered array itself is
    tested and resolved with. *)
Definition getBlockByHash (h : string) (st : Blockchain) : QueryResult :=
  let block :=
    BlockArray
      (filter (fun p => option_string_eqb (Block.hash p) (Some h)) (chain st)) in
  if truthy block then block else Null.

(** [getChainHeight()], lines 47-53. *)
Definition getChainHeight (st : Blockchain) : Z := height st.

(** [validateChain()], lines 224-243, up to the return of its promise.
    The executor allocates the error log, starts one callback per block
    (each calls [block.validate()] and suspends on its [await]), and
    resolves the promise with the log, which is still empty.  The result
    is the position of the log. *)
Definition validateChain (st : Blockchain) : Blockchain * nat :=
  let errorLog := length (errorLogs st) in
  let st1 := set_errorLogs (errorLogs st ++ [[]]) st in
  (set_queue
     (queue st1 ++
      map (fun block => ValidateResumed errorLog block (validate block))
        (chain st1)) st1,
   errorLog).

(** [_addBlock], lines 89-91: hash the block, push it, start the
    validation and suspend on its promise. *)
Definition stage (p : nat) (block : Block.t) (st : Blockchain) : Blockchain :=
  let block := Block.set_hash (Some (SHA256 (stringify block))) block in
  let st1 := set_chain (chain st ++ [block]) st in
  let '(st2, errorLog) := validateChain st1 in
  enqueue (AddValidated p block errorLog) st2.

(** [_addBlock(block)], lines 67-88, up to its first [await].  The result
    names the promise the call returns. *)
Definition _addBlock (block : Block.t) (now : Z) (st : Blockchain)
  : Blockchain * nat :=
  let p := length (promises st) in
  let st := set_promises (promises st ++ [None]) st in
  let currentChainHeight := height st in
  let newChainHeight := currentChainHeight + 1 in
  let block := Block.set_height newChainHeight block in
  let st := set_height newChainHeight st in
  let block := Block.set_time now block in
  if newChainHeight >? 0 then
    let previousBlock :=
      match getBlockByHeight currentChainHeight st with
      | OneBlock b => Some b
      | _ => None
      end in
    (enqueue (AddLinked p block previousBlock) st, p)
  else
    (stage p (Block.set_previousBlockHash None block) st, p).

(** [initializeChain()], lines 36-42.  Nothing follows its [await]. *)
Definition initializeChain (now : Z) (st : Blockchain) : Blockchain :=
  if height st =? -1 then fst (_addBlock (newBlock GenesisData) now st)
  else st.

(** The constructor, lines 25-29. *)
Definition constructor (now : Z) : Blockchain :=
  initializeChain now (mkBlockchain [] (-1) [] [] [] [] []).

(** The promise [submitStar] returns: rejected by the executor, or
    resolved with the promise of an [_addBlock] call, whose state it
    adopts.  A promise settles once: the [resolve] that follows a
    [reject] has no effect. *)
Inductive SubmitPromise :=
| RejectedBy (e : SubmitError)
| Adopts (p : nat).

(** [submitStar(address, message, signature, star)], lines 138-159.  The
    executor has no [await]: it runs to its end within the call.  The
    clock is read as [now] seconds. *)
Definition submitStar (address message signature : string) (star : Star)
    (now : Z) (st : Blockchain) : Blockchain * SubmitPromise :=
  let timeStamp := parseInt (nth_error (split ":" message) 1) in
  let currentTime := now in
  let fresh := match timeStamp with
               | Some t => currentTime - t <=? 5 * 60
               | None => false
               end in
  if fresh then
    (* line 146: the value of [verification] is not read again *)
    let verification := verify message address signature in
    let st := set_verifyCalls
                (verifyCalls st ++ [(message, address, signature)]) st in
    (* lines 148-150: the catch clause rejects and falls through *)
    let rejected := match verification with
                    | Some _ => false
                    | None => true
                    end in
    (* lines 151-152 *)
    let newBlock := newBlock (StarData address message signature star) in
    let '(st, p) := _addBlock newBlock now st in
    (st, if rejected then RejectedBy ValidationError else Adopts p)
  else
    (* line 156 *)
    (st, RejectedBy TimeExpired).

(** [getStarsByWalletAddress(address)], lines 203-216, up to the return
    of its promise: the array is allocated, one callback per block calls
    [block.getBData()] and suspends, and the promise is resolved with the
    array. *)
Definition getStarsByWalletAddress (address : string) (st : Blockchain)
  : Blockchain * nat :=
  let stars := length (starLists st) in
  let st1 := set_starLists (starLists st ++ [[]]) st in
  (set_queue
     (queue st1 ++
      map (fun block => StarsResumed stars (getBData block) address)
        (chain st1)) st1,
   stars).

(** One turn of the microtask queue: the continuation [j] runs up to its
    next [await] or to its end. *)
Definition run_job (j : Job) (st : Blockchain) : Blockchain :=
  match j with
  | AddLinked p block previousBlock =>
      match previousBlock with
      | Some previous =>
          (* line 83 *)
          stage p (Block.set_previousBlockHash (Block.hash previous) block) st
      | None =>
          (* [null.hash] throws; lines 100-102 *)
          fulfil p InvalidBlockString st
      end
  | AddValidated p block errorLog =>
      (* lines 93-98 *)
      let st :=
        if (0 <? Z.of_nat (length (arrayAt errorLog (errorLogs st)))) then
          set_height (height st - 1) (set_chain (removelast (chain st)) st)
        else st in
      fulfil p (ReturnedBlock block) st
  | ValidateResumed errorLog block valid =>
      (* lines 229-237 *)
      if valid then
        if Block.height block >? 0 then enqueue (LinkageResumed errorLog block) st
        else st
      else
        set_errorLogs
          (pushAt errorLog (BlockInvalid (Block.height block)) (errorLogs st)) st
  | LinkageResumed errorLog block =>
      (* lines 231-233: the awaited value is the [hash] property of a
         promise, which is [undefined]; [x != undefined] holds unless [x]
         is [null] *)
      match Block.previousBlockHash block with
      | Some _ =>
          set_errorLogs
            (pushAt errorLog (PreviousHashInvalid (Block.height block))
               (errorLogs st)) st
      | None => st
      end
  | StarsResumed stars body address =>
      (* lines 210-212 *)
      match body with
      | Some (StarData walletAddress _ _ star) =>
          if String.eqb walletAddress address then
            set_starLists (pushAt stars star (starLists st)) st
          else st
      | _ => st
      end
  end.

(** Running the first [n] continuations of the queue, in order. *)
Fixpoint drain (n : nat) (st : Blockchain) : Blockchain :=
  match n with
  | O => st
  | S n' =>
      match queue st with
      | [] => st
      | j :: rest => drain n' (run_job j (set_queue rest st))
      end
  end.

(** A bound on the turns the queue needs to empty: a continuation of
    [_addBlock] starts at most one validation of a chain no longer than
    [L]; a validation callback is resumed at most twice. *)
Definition isAddLinked (j : Job) : bool :=
  match j with AddLinked _ _ _ => true | _ => false end.

Definition jobWeight (L : nat) (j : Job) : nat :=
  match j with
  | AddLinked _ _ _ => 2 * L + 4
  | ValidateResumed _ _ _ => 2
  | _ => 1
  end.

Definition queueWeight (L : nat) (q : list Job) : nat :=
  list_sum (map (jobWeight L) q).

Definition chainBound (st : Blockchain) : nat :=
  length (chain st) + length (filter isAddLinked (queue st)).

Definition budget (st : Blockchain) : nat :=
  queueWeight (chainBound st) (queue st).

(** Running the queue until it is empty. *)
Definition settle (st : Blockchain) : Blockchain := drain (budget st) st.

(** The state in which a caller resumes that awaited a promise which was
    already resolved when the method returned it: its continuation is
    queued behind the jobs already there and runs when exactly those have
    run. *)
Definition resume (st : Blockchain) : Blockchain :=
  drain (length (queue st)) st.

(** The state of the promise [submitStar] returned. *)
Definition promiseState (pr : SubmitPromise) (st : Blockchain)
  : Settled AddResult :=
  match pr with
  | RejectedBy e => Rejected e
  | Adopts p =>
      match nth p (promises st) None with
      | Some r => Fulfilled r
      | None => Pending
      end
  end.

(** ** The methods called one at a time

    A caller that awaits each promise before its next call sees the
    methods below: the synchronous part of the call followed by the
    continuations it left on the queue. *)

(** [new Blockchain()], once the genesis block has been added. *)
Definition newBlockchain (now : Z) : Blockchain := settle (constructor now).

(** [await this._addBlock(block)]. *)
Definition addBlockAwaited (block : Block.t) (now : Z) (st : Blockchain)
  : Blockchain * Settled AddResult :=
  let '(st1, p) := _addBlock block now st in
  let st2 := settle st1 in
  (st2, promiseState (Adopts p) st2).

(** [await this.submitStar(address, message, signature, star)]. *)
Definition submitStarAwaited (address message signature : string)
    (star : Star) (now : Z) (st : Blockchain)
  : Blockchain * Settled AddResult :=
  let '(st1, pr) := submitStar address message signature star now st in
  let st2 := settle st1 in
  (st2, promiseState pr st2).

(** The error log as the caller of [await this.validateChain()] finds it
    when it resumes, and as it stands once every callback has finished. *)
Definition validateChainAwaited (st : Blockchain) : list ChainError :=
  let '(st1, errorLog) := validateChain st in
  arrayAt errorLog (errorLogs (resume st1)).

Definition validateChainFinal (st : Blockchain) : list ChainError :=
  let '(st1, errorLog) := validateChain st in
  arrayAt errorLog (errorLogs (settle st1)).

(** The stars as the caller of [await this.getStarsByWalletAddress(a)]
    finds them when it resumes. *)
Definition starsAwaited (address : string) (st : Blockchain) : list Star :=
  let '(st1, stars) := getStarsByWalletAddress address st in
  arrayAt stars (starLists (resume st1)).

(** ** What the specification asks of a chain *)

(** The stored hash is the digest of the content without the hash. *)
Definition digestMatches (b : Block.t) : Prop :=
  Block.hash b = Some (SHA256 (stringify (Block.set_hash None b))).

(** Heights follow positions, the genesis block has no previous hash and
    every later block carries the hash of the block before it. *)
Definition linked (c : list Block.t) : Prop :=
  forall i b, nth_error c i = Some b ->
    Block.height b = Z.of_nat i /\
    match i with
    | O => Block.previousBlockHash b = None
    | S j => exists a, nth_error c j = Some a /\
                       Block.previousBlockHash b = Block.hash a
    end.

(** A healthy chain: linked, and every digest matches. *)
Definition healthy (c : list Block.t) : Prop :=
  linked c /\ forall b, In b c -> digestMatches b.

(** The report the specification describes for [validateChain], in its
    words: for each block in height order, a tampered-block entry when the
    recomputed digest differs from the stored hash and, independently, for
    a height above zero, a broken-linkage entry when the previous hash
    differs from the hash of the block actually before it. *)
Fixpoint specifiedReportFrom (previous : option Block.t) (c : list Block.t)
  : list ChainError :=
  match c with
  | [] => []
  | b :: rest =>
      (if validate b then [] else [BlockInvalid (Block.height b)]) ++
      (if (Block.height b >? 0) &&
          negb (option_string_eqb (Block.previousBlockHash b)
                  (match previous with
                   | Some a => Block.hash a
                   | None => None
                   end))
       then [PreviousHashInvalid (Block.height b)] else []) ++
      specifiedReportFrom (Some b) rest
  end.

Definition specifiedReport (c : list Block.t) : list ChainError :=
  specifiedReportFrom None c.

(** The stars of the blocks whose decoded body is a star claim of the
    given wallet address, in chain order. *)
Definition starsOf (address : string) (c : list Block.t) : list Star :=
  flat_map
    (fun b =>
       match decode (Block.body b) with
       | Some (StarData walletAddress _ _ star) =>
           if String.eqb walletAddress address then [star] else []
       | _ => []
       end) c.

(** One when the chain is longer after a call than before it, else zero. *)
Definition grew (before after : Blockchain) : nat :=
  if Nat.ltb (length (chain before)) (length (chain after)) then 1%nat
  else 0%nat.

(** The states of a Blockchain object whose methods are called one at a
    time, with the number of blocks the calls have left on the chain: the
    construction, then any calls of [submitStar], each counted as an append
    when its block is on the chain once the call has settled, and any calls
    of [validateChain] and [getStarsByWalletAddress].  The remaining
    methods return a value and leave the object as it is. *)
Inductive reachable : Blockchain -> nat -> Prop :=
| reach_new now :
    reachable (newBlockchain now) 1
| reach_submit st n address message signature star now :
    reachable st n ->
    reachable
      (fst (submitStarAwaited address message signature star now st))
      (n + grew st
             (fst (submitStarAwaited address message signature star now st)))
| reach_validate st n :
    reachable st n ->
    reachable (settle (fst (validateChain st))) n
| reach_stars st n address :
    reachable st n ->
    reachable (settle (fst (getStarsByWalletAddress address st))) n.

(** ** What one validation leaves behind

    The entries the callbacks of [validateChain] push when they are first
    resumed, the continuations they queue for their second [await], and
    the entries those push. *)
Definition invalidEntries (bs : list Block.t) : list ChainError :=
  map (fun b => BlockInvalid (Block.height b))
    (filter (fun b => negb (validate b)) bs).

Definition awaitingLinkage (bs : list Block.t) : list Block.t :=
  filter (fun b => validate b && (Block.height b >? 0)) bs.

Definition hasPreviousHash (b : Block.t) : bool :=
  match Block.previousBlockHash b with Some _ => true | None => false end.

Definition linkageEntries (bs : list Block.t) : list ChainError :=
  map (fun b => PreviousHashInvalid (Block.height b))
    (filter hasPreviousHash bs).

(** The block [_addBlock] pushes on the chain, lines 75-89, when the
    queue holds nothing else: [None] when the look-up of line 82 finds no
    block, so that line 83 throws. *)
Definition hashed (b : Block.t) : Block.t :=
  Block.set_hash (Some (SHA256 (stringify b))) b.

Definition staged (block : Block.t) (now : Z) (st : Blockchain)
  : option Block.t :=
  let b := Block.set_time now (Block.set_height (height st + 1) block) in
  if height st + 1 >? 0 then
    match getBlockByHeight (height st) st with
    | OneBlock previous =>
        Some (hashed (Block.set_previousBlockHash (Block.hash previous) b))
    | _ => None
    end
  else Some (hashed (Block.set_previousBlockHash None b)).

(** The state [_addBlock] leaves once its continuations have run, when
    nothing else is pending: the log its validation filled and whether
    the staged block stayed. *)
Definition appended (p : nat) (b : Block.t) (st : Blockchain) : Blockchain :=
  let c := chain st ++ [b] in
  let keep := forallb validate c in
  mkBlockchain
    (if keep then c else chain st)
    (if keep then height st else height st - 1)
    (errorLogs st ++ [invalidEntries c ++ linkageEntries (awaitingLinkage c)])
    (starLists st) []
    (setAt p (Some (ReturnedBlock b)) (promises st))
    (verifyCalls st).

(** The object once [_addBlock] has taken its promise and raised the
    height, lines 70-76. *)
Definition entered (st : Blockchain) : Blockchain :=
  set_height (height st + 1) (set_promises (promises st ++ [None]) st).

(** The state [await this._addBlock(block)] leaves when nothing else is
    pending. *)
Definition afterAddBlock (block : Block.t) (now : Z) (st : Blockchain)
  : Blockchain :=
  match staged block now st with
  | Some b => appended (length (promises st)) b (entered st)
  | None =>
      fulfil (length (promises st)) InvalidBlockString (entered st)
  end.

(** The genesis block as [initializeChain] and [_addBlock] build it. *)
Definition genesisBlock (now : Z) : Block.t :=
  hashed (Block.set_previousBlockHash None
            (Block.set_time now (Block.set_height 0 (newBlock GenesisData)))).

(** The stored height is the last index of the chain. *)
Definition heightTracksChain (st : Blockchain) : Prop :=
  height st = Z.of_nat (length (chain st)) - 1.

(** The test of line 144 on a message and a clock reading. *)
Definition withinWindow (message : string) (now : Z) : bool :=
  match parseInt (nth_error (split ":" message) 1) with
  | Some t => now - t <=? 5 * 60
  | None => false
  end.

(** The state [await this.submitStar(..)] leaves when nothing else is
    pending. *)
Definition afterSubmitStar (address message signature : string)
    (star : Star) (now : Z) (st : Blockchain) : Blockchain :=
  if withinWindow message now then
    afterAddBlock (newBlock (StarData address message signature star)) now
      (set_verifyCalls (verifyCalls st ++ [(message, address, signature)]) st)
  else st.

(** What holds of every state the calls reach, one call at a time. *)
Definition wellFormed (st : Blockchain) (n : nat) : Prop :=
  queue st = [] /\ (1 <= n)%nat /\
  height st = Z.of_nat n - 1 /\ length (chain st) = n /\
  linked (chain st) /\ forallb validate (chain st) = true.

End Methods.

(** * A concrete choice of the services

    A symbolic digest that keeps its argument, a serialiser that writes the
    fields in the order of the Block record, a body codec that marks every
    character and a stand-in signature scheme.  The theorems below hold for every choice;
    this one instantiates them on concrete chains. *)

Module Example.

Definition showZ (z : Z) : string := NilZero.string_of_int (Z.to_int z).

Definition showNullable (v : option string) : string :=
  match v with
  | Some s => ("'" ++ s ++ "'")%string
  | None => "null"
  end.

Definition serialise (b : Block.t) : string :=
  ("{hash:" ++ showNullable (Block.hash b) ++
   ",height:" ++ showZ (Block.height b) ++
   ",body:'" ++ Block.body b ++
   "',time:'" ++ showZ (Block.time b) ++
   "',previousBlockHash:" ++ showNullable (Block.previousBlockHash b) ++
   "}")%string.

Definition digest (s : string) : string := ("sha256(" ++ s ++ ")")%string.

(** Each character of a field is written after a [1]; a [0] ends the
    field, and likewise for the entries of a star. *)
Fixpoint writeField (s : string) : string :=
  match s with
  | String c rest => String "1" (String c (writeField rest))
  | EmptyString => "0"
  end.

Fixpoint readField (s : string) : option (string * string) :=
  match s with
  | String "0" rest => Some (EmptyString, rest)
  | String "1" (String c rest) =>
      match readField rest with
      | Some (w, rest') => Some (String c w, rest')
      | None => None
      end
  | _ => None
  end.

Fixpoint writeStar (star : Star) : string :=
  match star with
  | (k, v) :: rest =>
      ("1" ++ writeField k ++ writeField v ++ writeStar rest)%string
  | [] => "0"
  end.

Fixpoint readStar (fuel : nat) (s : string) : option Star :=
  match fuel, s with
  | S fuel', String "1" rest =>
      match readField rest with
      | Some (k, rest1) =>
          match readField rest1 with
          | Some (v, rest2) =>
              match readStar fuel' rest2 with
              | Some star => Some ((k, v) :: star)
              | None => None
              end
          | None => None
          end
      | None => None
      end
  | _, String "0" EmptyString => Some []
  | _, _ => None
  end.

Definition encodeBody (d : BodyData) : string :=
  match d with
  | GenesisData => "G"
  | StarData w m s star =>
      ("S" ++ writeField w ++ writeField m ++ writeField s ++
       writeStar star)%string
  end.

Definition decodeBody (s : string) : option BodyData :=
  match s with
  | String "G" EmptyString => Some GenesisData
  | String "S" rest =>
      match readField rest with
      | Some (w, r1) =>
          match readField r1 with
          | Some (m, r2) =>
              match readField r2 with
              | Some (sg, r3) =>
                  match readStar (String.length r3) r3 with
                  | Some star => Some (StarData w m sg star)
                  | None => None
                  end
              | None => None
              end
          | None => None
          end
      | None => None
      end
  | _ => None
  end.

(** A signature is the text [signed:] followed by the address and the
    message; the empty signature is rejected as ill-formed. *)
Definition checkSignature (message address signature : string) : option bool :=
  match signature with
  | EmptyString => None
  | _ => Some (String.eqb signature
                 ("signed:" ++ address ++ ":" ++ message)%string)
  end.

#[export] Instance services : Services :=
  Build_Services digest serialise encodeBody decodeBody checkSignature.

Definition address : string := "miABqhtwMc8krfKT22zwKoq9WGorXzSWPW".
Definition message : string :=
  "miABqhtwMc8krfKT22zwKoq9WGorXzSWPW:1691239150:starRegistry".
Definition sign (address message : string) : string :=
  ("signed:" ++ address ++ ":" ++ message)%string.
Definition signature : string := sign address message.
Definition star : Star :=
  [("dec", "68 52 56.9"); ("ra", "16h 29m 1.0s");
   ("story", "Testing the story 4")].

(** A fresh chain, and the chain after the star above was submitted. *)
Definition fresh : Blockchain := newBlockchain 1691239100.
Definition registered : Blockchain :=
  fst (submitStarAwaited address message signature star 1691239200 fresh).

(** The block the submission left on the chain. *)
Definition registeredBlock : Block.t :=
  last (chain registered) (genesisBlock 0).

(** A signature that does not verify, and one the check rejects as
    ill-formed. *)
Definition forged : string := "signed:someone else".
Definition illFormed : string := "".

(** The fresh chain after the body of its genesis block was overwritten
    from outside the class. *)
Definition tampered : Blockchain :=
  set_chain (map (Block.set_body "Genesis Block, edited") (chain fresh)) fresh.

(** The registered chain after the previous hash of block 1 was removed
    and its hash recomputed to match. *)
Definition unlink (b : Block.t) : Block.t :=
  if Block.height b =? 1 then
    hashed (Block.set_previousBlockHash None (Block.set_hash None b))
  else b.

Definition unlinked : Blockchain :=
  set_chain (map unlink (chain registered)) registered.

(** The fresh chain after the height field of its genesis block was
    overwritten from outside the class. *)
Definition renumbered : Blockchain :=
  set_chain (map (Block.set_height 7) (chain fresh)) fresh.


(** Another wallet address. *)
Definition otherAddress : string := "mzKQEcUE(another wallet)".

End Example.

(** * Properties *)

Section Properties.

Context {services : Services}.

(** ** The queue always empties *)

Lemma drain_nil n st : queue st = [] -> drain n st = st.
Proof. intros H. destruct n; simpl; [reflexivity | now rewrite H]. Qed.

Lemma drain_cons n j rest st :
  queue st = j :: rest ->
  drain (S n) st = drain n (run_job j (set_queue rest st)).
Proof. intros H. simpl. now rewrite H. Qed.

Lemma drain_add n m st : drain (n + m) st = drain m (drain n st).
Proof.
  revert st. induction n as [|n IH]; intros st; simpl; [reflexivity|].
  destruct (queue st) eqn:E; [|apply IH].
  symmetry. now apply drain_nil.
Qed.

Lemma drain_settled n m st :
  queue (drain n st) = [] -> (n <= m)%nat -> drain m st = drain n st.
Proof.
  intros H Hle. replace m with (n + (m - n))%nat by lia.
  rewrite drain_add. now apply drain_nil.
Qed.

Lemma queueWeight_app L q1 q2 :
  queueWeight L (q1 ++ q2) = (queueWeight L q1 + queueWeight L q2)%nat.
Proof. unfold queueWeight. now rewrite map_app, list_sum_app. Qed.

Lemma queueWeight_validators L l (bs : list Block.t) :
  queueWeight L (map (fun b => ValidateResumed l b (validate b)) bs)
  = (2 * length bs)%nat.
Proof.
  unfold queueWeight. induction bs as [|b bs IH]; simpl in *; [reflexivity|].
  rewrite IH. lia.
Qed.

Lemma addLinked_validators l (bs : list Block.t) :
  filter isAddLinked (map (fun b => ValidateResumed l b (validate b)) bs) = [].
Proof. induction bs; simpl; auto. Qed.

Lemma removelast_length {A} (l : list A) :
  (length (removelast l) <= length l)%nat.
Proof.
  induction l as [|a l IH]; simpl; [lia|]. destruct l; simpl in *; lia.
Qed.

(** One turn keeps the bound on the chain and uses up weight. *)
Lemma run_job_weight L j rest st :
  queue st = j :: rest -> (chainBound st <= L)%nat ->
  let st' := run_job j (set_queue rest st) in
  (chainBound st' <= L)%nat /\
  (queueWeight L (queue st') < queueWeight L (queue st))%nat.
Proof.
  destruct st as [c h logs stars q ps vc]. simpl. intros -> HL.
  unfold chainBound in *. simpl in *.
  destruct j as [p b [prev|] | p b l | l b [|] | l b | s [[|w m sg star]|] a];
    simpl in *.
  - unfold stage, validateChain, enqueue; simpl.
    set (b' := Block.set_hash _ _).
    rewrite !filter_app, addLinked_validators, !queueWeight_app,
      queueWeight_validators, !length_app.
    unfold queueWeight; simpl. lia.
  - unfold queueWeight; simpl. lia.
  - destruct (0 <? _); unfold queueWeight; simpl;
      [pose proof (removelast_length c)|]; lia.
  - destruct (Block.height b >? 0); unfold enqueue, queueWeight; simpl.
    + rewrite filter_app, map_app, list_sum_app, length_app. simpl. lia.
    + lia.
  - unfold queueWeight; simpl. lia.
  - destruct (Block.previousBlockHash b); unfold queueWeight; simpl; lia.
  - unfold queueWeight; simpl. lia.
  - destruct (String.eqb w a); unfold queueWeight; simpl; lia.
  - unfold queueWeight; simpl. lia.
Qed.

Lemma drain_quiesces n : forall st L,
  (chainBound st <= L)%nat -> (queueWeight L (queue st) <= n)%nat ->
  queue (drain n st) = [].
Proof.
  induction n as [|n IH]; intros st L HL Hw.
  - simpl. destruct (queue st) as [|j rest]; [reflexivity|].
    exfalso. unfold queueWeight in Hw. simpl in Hw.
    destruct j; simpl in Hw; lia.
  - simpl. destruct (queue st) as [|j rest] eqn:E; [assumption|].
    destruct (run_job_weight L j rest st E HL) as [HL' Hw'].
    apply (IH _ L HL'). rewrite E in *. lia.
Qed.

(** Every call, whatever else is pending, is followed by finitely many
    turns of the queue: [settle] leaves nothing pending. *)
Theorem settle_quiescent st : queue (settle st) = [].
Proof. apply (drain_quiesces _ st (chainBound st)); unfold budget; lia. Qed.

Lemma settle_idle st : queue st = [] -> settle st = st.
Proof. intros H. unfold settle. now apply drain_nil. Qed.

Lemma settle_eq n st : queue (drain n st) = [] -> settle st = drain n st.
Proof.
  intros H. unfold settle.
  destruct (Nat.le_ge_cases n (budget st)) as [Hle|Hle].
  - now apply drain_settled.
  - symmetry. apply drain_settled; [apply settle_quiescent | exact Hle].
Qed.

(** ** The arrays shared by the callbacks *)

Lemma pushAt_app {A} (old : list (list A)) cur tl (x : A) :
  pushAt (length old) x (old ++ cur :: tl) = old ++ (cur ++ [x]) :: tl.
Proof. induction old as [|a old IH]; simpl; [reflexivity | now rewrite IH]. Qed.

Lemma arrayAt_app {A} (old : list (list A)) cur tl :
  arrayAt (length old) (old ++ cur :: tl) = cur.
Proof. unfold arrayAt. induction old; simpl; auto. Qed.

(** ** One validation, turn by turn *)

(** The first resumption of the callbacks: each invalid block leaves its
    entry, each valid block above height zero suspends again. *)
Lemma drain_validators bs : forall st old cur tl rest,
  errorLogs st = old ++ cur :: tl ->
  queue st =
    map (fun b => ValidateResumed (length old) b (validate b)) bs ++ rest ->
  drain (length bs) st =
    set_queue (rest ++ map (LinkageResumed (length old)) (awaitingLinkage bs))
      (set_errorLogs (old ++ (cur ++ invalidEntries bs) :: tl) st).
Proof.
  induction bs as [|b bs IH]; intros st old cur tl rest Hlog Hq.
  - destruct st; simpl in *; subst.
    unfold set_queue, set_errorLogs; simpl. now rewrite !app_nil_r.
  - change (length (b :: bs)) with (S (length bs)).
    rewrite (drain_cons _ _ _ _ Hq).
    unfold invalidEntries, awaitingLinkage. simpl filter.
    destruct st as [c h logs stars q ps vc]; simpl in *; subst.
    destruct (validate b) eqn:Hv; simpl.
    + destruct (Block.height b >? 0) eqn:Hh; simpl.
      * unfold enqueue, set_queue; simpl. rewrite <- app_assoc.
        erewrite IH; [|reflexivity|reflexivity].
        unfold set_queue, set_errorLogs, invalidEntries, awaitingLinkage;
          simpl. now rewrite <- app_assoc.
      * erewrite IH; [|reflexivity|reflexivity]. reflexivity.
    + unfold set_errorLogs; simpl. rewrite pushAt_app.
      erewrite IH; [|reflexivity|reflexivity].
      unfold set_queue, set_errorLogs, invalidEntries, awaitingLinkage;
        simpl. now rewrite <- app_assoc.
Qed.

(** The second resumption: the comparison of line 231 is with
    [undefined], so every block that carries a previous hash leaves an
    entry. *)
Lemma drain_linkage bs : forall st old cur tl rest,
  errorLogs st = old ++ cur :: tl ->
  queue st = map (LinkageResumed (length old)) bs ++ rest ->
  drain (length bs) st =
    set_queue rest
      (set_errorLogs (old ++ (cur ++ linkageEntries bs) :: tl) st).
Proof.
  induction bs as [|b bs IH]; intros st old cur tl rest Hlog Hq.
  - destruct st; simpl in *; subst.
    unfold set_queue, set_errorLogs; simpl. now rewrite !app_nil_r.
  - change (length (b :: bs)) with (S (length bs)).
    rewrite (drain_cons _ _ _ _ Hq).
    unfold linkageEntries. simpl filter. unfold hasPreviousHash at 1.
    destruct st as [c h logs stars q ps vc]; simpl in *; subst.
    destruct (Block.previousBlockHash b) eqn:Hp; simpl.
    + unfold set_errorLogs; simpl. rewrite pushAt_app.
      erewrite IH; [|reflexivity|reflexivity].
      unfold set_queue, set_errorLogs, linkageEntries; simpl.
      now rewrite <- app_assoc.
    + erewrite IH; [|reflexivity|reflexivity]. reflexivity.
Qed.

Lemma invalidEntries_nil bs :
  invalidEntries bs = [] <-> forallb validate bs = true.
Proof.
  unfold invalidEntries. induction bs as [|b bs IH]; simpl; [tauto|].
  destruct (validate b); simpl; [exact IH|]. split; discriminate.
Qed.

(** ** One append, from staging to the settled state *)

Lemma drain_stage p b st :
  queue st = [] ->
  let c := chain st ++ [hashed b] in
  drain (length c + (1 + length (awaitingLinkage c))) (stage p b st)
  = appended p (hashed b) st.
Proof.
  intros Hq c. rewrite drain_add.
  unfold stage, validateChain, enqueue. simpl.
  fold (hashed b). fold c.
  erewrite (drain_validators c _ (errorLogs st) [] []
              [AddValidated p (hashed b) (length (errorLogs st))]);
    [| destruct st; reflexivity
     | destruct st; simpl in *; subst; reflexivity ].
  destruct st as [ch h logs stars q ps vc]; simpl in *; subst.
  unfold set_queue, set_errorLogs; simpl.
  rewrite arrayAt_app.
  set (js := map (LinkageResumed (length logs)) (awaitingLinkage c)).
  unfold appended; simpl. fold c.
  destruct (forallb validate c) eqn:Hk.
  - apply invalidEntries_nil in Hk. rewrite Hk. simpl.
    unfold fulfil, set_promises; simpl.
    erewrite (drain_linkage (awaitingLinkage c) _ logs [] [] []);
      [| reflexivity | simpl; fold js; now rewrite app_nil_r ].
    reflexivity.
  - assert (Hne : invalidEntries c <> []).
    { intros E. apply invalidEntries_nil in E. congruence. }
    destruct (invalidEntries c) as [|e es] eqn:Hi; [congruence|].
    simpl length.
    replace (0 <? Z.of_nat (S (length es))) with true
      by (symmetry; apply Z.ltb_lt; lia).
    unfold fulfil, set_promises, set_height, set_chain; simpl.
    replace (removelast c) with ch
      by (unfold c; simpl; now rewrite removelast_last).
    erewrite (drain_linkage (awaitingLinkage c) _ logs (e :: es) [] []);
      [| reflexivity | simpl; fold js; now rewrite app_nil_r ].
    unfold set_queue, set_errorLogs; simpl. reflexivity.
Qed.

Lemma addBlock_promise block now st :
  snd (_addBlock block now st) = length (promises st).
Proof. unfold _addBlock. simpl. now destruct (height st + 1 >? 0). Qed.

Lemma settle_to n st st' :
  drain n st = st' -> queue st' = [] -> settle st = st'.
Proof. intros <- H. now apply settle_eq. Qed.

Lemma getBlockByHeight_eq h st :
  getBlockByHeight h st =
  match filter (fun p => Block.height p =? h) (chain st) with
  | b :: _ => OneBlock b
  | [] => Null
  end.
Proof.
  unfold getBlockByHeight.
  now destruct (filter (fun p => Block.height p =? h) (chain st)).
Qed.

Lemma addBlock_settled block now st :
  queue st = [] ->
  settle (fst (_addBlock block now st)) = afterAddBlock block now st.
Proof.
  intros Hq. unfold _addBlock, afterAddBlock, staged.
  destruct st as [c h logs stars q ps vc]; simpl in *; subst.
  destruct (h + 1 >? 0) eqn:Hh; simpl.
  - rewrite !getBlockByHeight_eq; simpl.
    destruct (filter (fun p => Block.height p =? h) c) as [|prev ?] eqn:Hf.
    + now apply (settle_to 1).
    + set (b := Block.set_previousBlockHash _ _).
      set (c' := c ++ [hashed b]).
      apply (settle_to (S (length c' + (1 + length (awaitingLinkage c')))));
        [|reflexivity].
      erewrite drain_cons; [|reflexivity].
      exact (drain_stage (length ps) b
               (mkBlockchain c (h + 1) logs stars [] (ps ++ [None]) vc) eq_refl).
  - set (b := Block.set_previousBlockHash _ _).
    set (c' := c ++ [hashed b]).
    apply (settle_to (length c' + (1 + length (awaitingLinkage c'))));
      [|reflexivity].
    exact (drain_stage (length ps) b
             (mkBlockchain c (h + 1) logs stars [] (ps ++ [None]) vc) eq_refl).
Qed.

(** ** submitStar: the freshness gate *)

(** C6.  When the time stamp read from the message lies more than 300
    seconds before the clock reading, [submitStar] rejects with the
    time-expired error, whatever the signature check would answer: the
    check is not called, nothing is queued, and the chain and its height
    are as before. *)
Theorem submitStar_expired address message signature star now st t :
  parseInt (nth_error (split ":" message) 1) = Some t ->
  now - t > 300 ->
  let r := submitStar address message signature star now st in
  fst r = st /\
  (forall st', failsWith ExpiredChallenge (promiseState (snd r) st')) /\
  verifyCalls (fst r) = verifyCalls st /\
  getChainHeight (fst r) = getChainHeight st /\
  chain (fst r) = chain st.
Proof.
  intros Ht Hold. unfold submitStar. rewrite Ht.
  replace (now - t <=? 5 * 60) with false
    by (symmetry; apply Z.leb_gt; lia).
  simpl. repeat split. intros st'. exists TimeExpired. now split.
Qed.

(** C7, as the code has it.  The class has no malformed-message error.
    When [parseInt] finds no number in the second colon-separated field
    of the message (the field is missing, or does not begin with a digit
    after white space and a sign), the elapsed time is NaN, the test of
    line 144 fails, and the call is rejected with the time-expired error;
    the signature check is not called and the chain and its height are as
    before. *)
Theorem submitStar_unparsed address message signature star now st :
  parseInt (nth_error (split ":" message) 1) = None ->
  let r := submitStar address message signature star now st in
  fst r = st /\
  (forall st', promiseState (snd r) st' = Rejected TimeExpired) /\
  verifyCalls (fst r) = verifyCalls st /\
  getChainHeight (fst r) = getChainHeight st /\
  chain (fst r) = chain st.
Proof.
  intros Ht. unfold submitStar. rewrite Ht. simpl. repeat split.
Qed.

(** No rejection of [submitStar] is of the malformed-message kind. *)
Lemma kindOf_not_malformed e : kindOf e <> MalformedMessage.
Proof. destruct e; discriminate. Qed.

(** ** getBlockByHash *)

(** The method resolves with the array [filter] returned, for a hit and
    for a miss alike; the [null] of line 175 is never reached. *)
Lemma getBlockByHash_array h st :
  getBlockByHash h st =
  BlockArray
    (filter (fun p => option_string_eqb (Block.hash p) (Some h)) (chain st)).
Proof. reflexivity. Qed.

(** ** submitStar, settled *)

Lemma submitStar_settled address message signature star now st :
  queue st = [] ->
  fst (submitStarAwaited address message signature star now st)
  = afterSubmitStar address message signature star now st.
Proof.
  intros Hq. unfold submitStarAwaited, submitStar, afterSubmitStar, withinWindow.
  destruct (match parseInt (nth_error (split ":" message) 1) with
            | Some t => now - t <=? 5 * 60
            | None => false
            end).
  - set (st1 := set_verifyCalls _ st).
    set (block := newBlock _).
    pose proof (addBlock_settled block now st1) as H.
    destruct (_addBlock block now st1) as [st2 p]. simpl in *.
    apply H. destruct st; exact Hq.
  - simpl. now apply settle_idle.
Qed.

Lemma submitStarAwaited_quiescent address message signature star now st :
  queue (fst (submitStarAwaited address message signature star now st)) = [].
Proof.
  unfold submitStarAwaited.
  destruct (submitStar address message signature star now st).
  apply settle_quiescent.
Qed.

Lemma staged_body block now st b :
  staged block now st = Some b -> Block.body b = Block.body block.
Proof.
  unfold staged. destruct (height st + 1 >? 0).
  - destruct (getBlockByHeight (height st) st); intros H; inversion H;
      reflexivity.
  - intros H; inversion H; reflexivity.
Qed.

(** What an append does to the chain: it grows by the staged block or
    stays as it was. *)
Lemma afterAddBlock_chain block now st :
  chain (afterAddBlock block now st) = chain st \/
  exists b, staged block now st = Some b /\
            forallb validate (chain st ++ [b]) = true /\
            chain (afterAddBlock block now st) = chain st ++ [b].
Proof.
  unfold afterAddBlock. destruct (staged block now st) as [b|] eqn:Hs.
  - unfold appended. replace (chain (entered st)) with (chain st)
      by (destruct st; reflexivity).
    destruct (forallb validate (chain st ++ [b])) eqn:Hk; simpl.
    + right. exists b. auto.
    + now left.
  - left. destruct st; reflexivity.
Qed.

Lemma grew_same a b : chain b = chain a -> grew a b = 0%nat.
Proof. unfold grew. intros ->. now rewrite Nat.ltb_irrefl. Qed.

(** ** getStarsByWalletAddress *)

Lemma drain_stars address bs : forall st old cur tl rest,
  starLists st = old ++ cur :: tl ->
  queue st =
    map (fun b => StarsResumed (length old) (getBData b) address) bs ++ rest ->
  drain (length bs) st =
    set_queue rest
      (set_starLists (old ++ (cur ++ starsOf address bs) :: tl) st).
Proof.
  induction bs as [|b bs IH]; intros st old cur tl rest Hs Hq.
  - destruct st; simpl in *; subst.
    unfold set_queue, set_starLists; simpl. now rewrite !app_nil_r.
  - change (length (b :: bs)) with (S (length bs)).
    rewrite (drain_cons _ _ _ _ Hq).
    destruct st as [c h logs stars q ps vc]; simpl in *; subst.
    unfold getBData.
    destruct (decode (Block.body b)) as [[|w m sg star]|]; simpl;
      try (erewrite IH; [|reflexivity|reflexivity]; reflexivity).
    destruct (String.eqb w address); simpl.
    + unfold set_starLists; simpl. rewrite pushAt_app.
      erewrite IH; [|reflexivity|reflexivity].
      unfold set_queue, set_starLists; simpl. now rewrite <- app_assoc.
    + erewrite IH; [|reflexivity|reflexivity]. reflexivity.
Qed.

Lemma starsAwaited_starsOf address st :
  queue st = [] -> starsAwaited address st = starsOf address (chain st).
Proof.
  intros Hq. unfold starsAwaited, getStarsByWalletAddress, resume.
  destruct st as [c h logs stars q ps vc]; simpl in *; subst. simpl.
  rewrite length_map.
  erewrite (drain_stars address c _ stars [] [] []);
    [| reflexivity | simpl; now rewrite app_nil_r ].
  simpl. apply arrayAt_app.
Qed.

Lemma starsOf_app address c1 c2 :
  starsOf address (c1 ++ c2) = starsOf address c1 ++ starsOf address c2.
Proof. unfold starsOf. apply flat_map_app. Qed.

(** C9.  A caller that awaits [getStarsByWalletAddress(address)] finds,
    in chain order, exactly the stars of the blocks whose decoded body is
    a star claim with that wallet address; a block whose body decodes to
    the genesis payload contributes nothing; and when a [submitStar] for
    the address has left its block on the chain, the star of that claim
    is among them. *)
Theorem getStarsByWalletAddress_exact address message signature star now st :
  queue st = [] ->
  decode (encode (StarData address message signature star))
    = Some (StarData address message signature star) ->
  starsAwaited address st = starsOf address (chain st) /\
  (forall b, decode (Block.body b) = Some GenesisData ->
             starsOf address [b] = []) /\
  let st' := fst (submitStarAwaited address message signature star now st) in
  (grew st st' = 1%nat -> In star (starsAwaited address st')).
Proof.
  intros Hq Hdec. split; [now apply starsAwaited_starsOf|]. split.
  - intros b Hb. unfold starsOf. simpl. now rewrite Hb.
  - intros st' Hgrew.
    assert (Hq' : queue st' = []) by apply submitStarAwaited_quiescent.
    rewrite (starsAwaited_starsOf _ _ Hq').
    subst st'. rewrite submitStar_settled in * by assumption.
    unfold afterSubmitStar in *.
    destruct (withinWindow message now);
      [| rewrite grew_same in Hgrew; [discriminate | reflexivity] ].
    set (st1 := set_verifyCalls _ st) in *.
    destruct (afterAddBlock_chain
                (newBlock (StarData address message signature star)) now st1)
      as [Hc | [b [Hs [_ Hc]]]].
    + rewrite grew_same in Hgrew; [discriminate|].
      rewrite Hc. destruct st; reflexivity.
    + rewrite Hc, starsOf_app. apply in_or_app. right.
      apply staged_body in Hs. unfold starsOf. simpl.
      rewrite Hs. simpl. rewrite Hdec, String.eqb_refl. now left.
Qed.

(** ** The promise of an append *)

Lemma setAt_app {A} (old : list A) y tl (x : A) :
  setAt (length old) x (old ++ y :: tl) = old ++ x :: tl.
Proof. induction old as [|a old IH]; simpl; [reflexivity | now rewrite IH]. Qed.

Lemma nth_app_here {A} (old : list A) y tl (d : A) :
  nth (length old) (old ++ y :: tl) d = y.
Proof. induction old; simpl; auto. Qed.

Lemma afterAddBlock_promise block now st :
  promiseState (Adopts (length (promises st))) (afterAddBlock block now st)
  = Fulfilled match staged block now st with
              | Some b => ReturnedBlock b
              | None => InvalidBlockString
              end.
Proof.
  unfold afterAddBlock, promiseState.
  destruct (staged block now st) as [b|]; destruct st; simpl;
    now rewrite setAt_app, nth_app_here.
Qed.

Lemma addBlockAwaited_eq block now st :
  queue st = [] ->
  addBlockAwaited block now st =
  (afterAddBlock block now st,
   Fulfilled match staged block now st with
             | Some b => ReturnedBlock b
             | None => InvalidBlockString
             end).
Proof.
  intros Hq. unfold addBlockAwaited.
  pose proof (addBlock_settled block now st Hq) as H.
  pose proof (addBlock_promise block now st) as Hp.
  destruct (_addBlock block now st) as [st1 p]. cbn [fst snd] in *. subst p.
  now rewrite H, afterAddBlock_promise.
Qed.

(** ** The digest of a committed block *)

Lemma validate_digestMatches b : validate b = true <-> digestMatches b.
Proof.
  unfold validate, digestMatches, option_string_eqb.
  destruct (Block.hash b) as [h|]; [|split; discriminate].
  rewrite String.eqb_eq. split; congruence.
Qed.

Lemma validate_hashed b : Block.hash b = None -> validate (hashed b) = true.
Proof.
  intros H. apply validate_digestMatches. unfold digestMatches, hashed.
  destruct b; simpl in *. subst. reflexivity.
Qed.


(** An append to a chain on which some block, the staged one included,
    fails [validate]: the block is popped and the height restored, and the
    promise is fulfilled with the block. *)
Lemma addBlock_rollback block now st b :
  queue st = [] ->
  staged block now st = Some b ->
  forallb validate (chain st ++ [b]) = false ->
  let r := addBlockAwaited block now st in
  chain (fst r) = chain st /\ height (fst r) = height st /\
  snd r = Fulfilled (ReturnedBlock b).
Proof.
  intros Hq Hs Hk r. subst r. rewrite addBlockAwaited_eq by assumption.
  unfold afterAddBlock. rewrite Hs. unfold appended, entered.
  destruct st as [c h logs stars q ps vc]; simpl in *. rewrite Hk. simpl.
  repeat split. lia.
Qed.

(** ** validateChain, turn by turn *)

Lemma validateChain_resumed st :
  queue st = [] ->
  resume (fst (validateChain st)) =
  set_queue
    (map (LinkageResumed (length (errorLogs st))) (awaitingLinkage (chain st)))
    (set_errorLogs (errorLogs st ++ [invalidEntries (chain st)]) st).
Proof.
  intros Hq. unfold resume, validateChain.
  destruct st as [c h logs stars q ps vc]; simpl in *; subst. simpl.
  rewrite length_map.
  erewrite (drain_validators c _ logs [] [] []);
    [| reflexivity | simpl; now rewrite app_nil_r ].
  reflexivity.
Qed.

Lemma validateChain_settled st :
  queue st = [] ->
  settle (fst (validateChain st)) =
  set_errorLogs
    (errorLogs st ++
     [invalidEntries (chain st) ++
      linkageEntries (awaitingLinkage (chain st))]) st.
Proof.
  intros Hq.
  pose proof (validateChain_resumed st Hq) as H. unfold resume in H.
  apply (settle_to (length (queue (fst (validateChain st))) +
                    length (awaitingLinkage (chain st))));
    [| destruct st; exact Hq ].
  rewrite drain_add, H.
  destruct st as [c h logs stars q ps vc]; simpl in *; subst.
  erewrite (drain_linkage (awaitingLinkage c) _ logs _ [] []);
    [| reflexivity | simpl; now rewrite app_nil_r ].
  reflexivity.
Qed.

(** What the awaiting caller finds are the entries of the invalid
    blocks; the linkage entries arrive on the same array afterwards. *)
Lemma validateChainAwaited_eq st :
  queue st = [] -> validateChainAwaited st = invalidEntries (chain st).
Proof.
  intros Hq. unfold validateChainAwaited.
  pose proof (validateChain_resumed st Hq) as H.
  destruct (validateChain st) as [st1 l] eqn:E.
  assert (l = length (errorLogs st)) by (unfold validateChain in E; congruence).
  subst l. simpl in H. rewrite H. destruct st; simpl. apply arrayAt_app.
Qed.

Lemma validateChainFinal_eq st :
  queue st = [] ->
  validateChainFinal st =
  invalidEntries (chain st) ++ linkageEntries (awaitingLinkage (chain st)).
Proof.
  intros Hq. unfold validateChainFinal.
  pose proof (validateChain_settled st Hq) as H.
  destruct (validateChain st) as [st1 l] eqn:E.
  assert (l = length (errorLogs st)) by (unfold validateChain in E; congruence).
  subst l. simpl in H. rewrite H. destruct st; simpl. apply arrayAt_app.
Qed.

(** ** The height counter *)

Lemma newBlockchain_eq now :
  newBlockchain now =
  mkBlockchain [genesisBlock now] 0 [[]] [] []
    [Some (ReturnedBlock (genesisBlock now))] [].
Proof.
  unfold newBlockchain, constructor, initializeChain.
  set (init := mkBlockchain [] (-1) [] [] [] [] []).
  change (height init =? -1) with true. cbv iota.
  rewrite addBlock_settled by reflexivity.
  unfold afterAddBlock, staged, appended, entered. simpl.
  fold (genesisBlock now).
  assert (Hv : validate (genesisBlock now) = true)
    by (apply validate_hashed; reflexivity).
  unfold invalidEntries, awaitingLinkage. simpl. rewrite Hv. simpl.
  reflexivity.
Qed.

Lemma getStars_settled address st :
  queue st = [] ->
  settle (fst (getStarsByWalletAddress address st)) =
  set_starLists (starLists st ++ [starsOf address (chain st)]) st.
Proof.
  intros Hq. apply (settle_to (length (chain st))); [| destruct st; exact Hq ].
  unfold getStarsByWalletAddress.
  destruct st as [c h logs stars q ps vc]; simpl in *; subst. simpl.
  erewrite (drain_stars address c _ stars [] [] []);
    [| reflexivity | simpl; now rewrite app_nil_r ].
  reflexivity.
Qed.



(** ** The chain invariants *)

Lemma linked_height c i b :
  linked c -> nth_error c i = Some b -> Block.height b = Z.of_nat i.
Proof. intros H Hn. now destruct (H i b Hn). Qed.

Lemma filter_none {A} (f : A -> bool) l :
  (forall x, In x l -> f x = false) -> filter f l = [].
Proof.
  induction l as [|a l IH]; intros H; simpl; [reflexivity|].
  rewrite (H a) by now left. apply IH. intros x Hx. apply H. now right.
Qed.

(** In a linked chain the look-up of line 82 finds the last block. *)
Lemma tip_lookup c tip :
  linked (c ++ [tip]) ->
  filter (fun p => Block.height p =? Z.of_nat (length c)) (c ++ [tip]) = [tip].
Proof.
  intros H. rewrite filter_app. simpl.
  assert (Ht : Block.height tip = Z.of_nat (length c)).
  { apply (linked_height (c ++ [tip])); [assumption|].
    rewrite nth_error_app2, Nat.sub_diag by lia. reflexivity. }
  rewrite Ht, Z.eqb_refl.
  rewrite filter_none; [reflexivity|].
  intros x Hx. apply In_nth_error in Hx as [i Hi].
  assert (Hlt : (i < length c)%nat)
    by (apply nth_error_Some; congruence).
  rewrite (linked_height (c ++ [tip]) i x H)
    by (rewrite nth_error_app1; assumption).
  apply Z.eqb_neq. lia.
Qed.

Lemma linked_snoc c tip b :
  linked (c ++ [tip]) ->
  Block.height b = Z.of_nat (length (c ++ [tip])) ->
  Block.previousBlockHash b = Block.hash tip ->
  linked ((c ++ [tip]) ++ [b]).
Proof.
  intros H Hh Hp i x Hi.
  destruct (Nat.lt_ge_cases i (length (c ++ [tip]))) as [Hlt|Hge].
  - rewrite nth_error_app1 in Hi by assumption.
    destruct (H i x Hi) as [H1 H2]. split; [assumption|].
    destruct i as [|j]; [assumption|].
    destruct H2 as [a [Ha Hpa]]. exists a. split; [|assumption].
    rewrite nth_error_app1; [assumption|]. lia.
  - assert (Hlen : (i < length ((c ++ [tip]) ++ [b]))%nat)
      by (apply nth_error_Some; congruence).
    rewrite length_app in Hlen. simpl in Hlen.
    assert (i = length (c ++ [tip])) by lia. subst i.
    rewrite nth_error_app2, Nat.sub_diag in Hi by lia.
    simpl in Hi. inversion Hi; subst x. split; [assumption|].
    rewrite length_app. simpl. rewrite Nat.add_1_r.
    exists tip. split; [|assumption].
    rewrite nth_error_app1 by (rewrite length_app; simpl; lia).
    rewrite nth_error_app2, Nat.sub_diag by lia. reflexivity.
Qed.

Lemma linked_genesis now : linked [genesisBlock now].
Proof.
  intros i b Hi. destruct i as [|i]; simpl in Hi.
  - inversion Hi; subst. split; reflexivity.
  - destruct i; discriminate.
Qed.

Lemma wellFormed_new now : wellFormed (newBlockchain now) 1.
Proof.
  rewrite newBlockchain_eq. unfold wellFormed. simpl.
  split; [reflexivity|]. split; [lia|]. split; [reflexivity|].
  split; [reflexivity|]. split; [apply linked_genesis|].
  rewrite andb_true_r. apply validate_hashed. reflexivity.
Qed.

(** On a well-formed chain an append of a block whose hash field is empty
    finds the tip, passes the validation and stays. *)
Lemma afterAddBlock_commits block now st n :
  wellFormed st n -> Block.hash block = None ->
  exists b,
    chain (afterAddBlock block now st) = chain st ++ [b] /\
    height (afterAddBlock block now st) = height st + 1 /\
    wellFormed (afterAddBlock block now st) (S n).
Proof.
  intros (Hq & Hn & Hh & Hlen & Hl & Hv) Hnone.
  destruct st as [c h logs stars q ps vc]; simpl in *. subst q h.
  destruct (exists_last (l := c)) as [c0 [tip Hc]];
    [intros ->; simpl in Hlen; lia|]. subst c.
  assert (Hn' : n = S (length c0))
    by (rewrite length_app in Hlen; simpl in Hlen; lia).
  unfold afterAddBlock, staged. rewrite getBlockByHeight_eq. simpl.
  replace (Z.of_nat n - 1 + 1 >? 0) with true
    by (symmetry; apply Z.gtb_lt; lia).
  replace (Z.of_nat n - 1) with (Z.of_nat (length c0)) by lia.
  rewrite (tip_lookup c0 tip Hl).
  set (b := hashed _).
  assert (Hb : validate b = true)
    by (apply validate_hashed; destruct block; simpl in *; assumption).
  unfold appended, entered; simpl.
  rewrite forallb_app, Hv. simpl. rewrite Hb. simpl.
  exists b. split; [reflexivity|]. split; [reflexivity|].
  unfold wellFormed; cbn [queue height chain].
  split; [reflexivity|]. split; [lia|]. split; [lia|].
  split; [rewrite !length_app; simpl; lia|]. split.
  - apply linked_snoc; [assumption| |reflexivity].
    subst b. simpl. rewrite length_app. simpl. lia.
  - rewrite !forallb_app. rewrite forallb_app in Hv. rewrite Hv. simpl.
    now rewrite Hb.
Qed.

Lemma grew_snoc a b x : chain b = chain a ++ [x] -> grew a b = 1%nat.
Proof.
  unfold grew. intros ->. rewrite length_app. simpl.
  replace (_ <? _)%nat with true; [reflexivity|].
  symmetry. apply Nat.ltb_lt. lia.
Qed.

Lemma wellFormed_verifyCalls v st n :
  wellFormed st n -> wellFormed (set_verifyCalls v st) n.
Proof. destruct st; exact (fun H => H). Qed.

Lemma wellFormed_submit address message signature star now st n :
  wellFormed st n ->
  let st' := afterSubmitStar address message signature star now st in
  wellFormed st' (n + grew st st').
Proof.
  intros Hw st'. subst st'. unfold afterSubmitStar.
  destruct (withinWindow message now).
  - set (st1 := set_verifyCalls _ st).
    destruct (afterAddBlock_commits
                (newBlock (StarData address message signature star)) now st1 n)
      as (b & Hc & _ & Hw'); [now apply wellFormed_verifyCalls | reflexivity |].
    rewrite (grew_snoc st _ b) by (rewrite Hc; destruct st; reflexivity).
    now rewrite Nat.add_1_r.
  - rewrite grew_same by reflexivity. now rewrite Nat.add_0_r.
Qed.

Lemma reachable_wellFormed st n : reachable st n -> wellFormed st n.
Proof.
  induction 1 as [now | st n address message signature star now Hr IH
                  | st n Hr IH | st n address Hr IH].
  - apply wellFormed_new.
  - rewrite submitStar_settled by apply IH.
    now apply wellFormed_submit.
  - rewrite validateChain_settled by apply IH. destruct st; exact IH.
  - rewrite getStars_settled by apply IH. destruct st; exact IH.
Qed.

(** From every state the calls reach, a message within the window has its
    block appended: the answer of the signature check plays no part. *)
Lemma submitStar_appends_in_window address message signature star now st n :
  reachable st n ->
  withinWindow message now = true ->
  let st' := fst (submitStarAwaited address message signature star now st) in
  exists b, chain st' = chain st ++ [b] /\
            getChainHeight st' = getChainHeight st + 1.
Proof.
  intros Hr Hin st'. subst st'.
  pose proof (reachable_wellFormed st n Hr) as Hw.
  rewrite submitStar_settled by apply Hw.
  unfold afterSubmitStar. rewrite Hin.
  set (st1 := set_verifyCalls _ st).
  destruct (afterAddBlock_commits
              (newBlock (StarData address message signature star)) now st1 n)
    as (b & Hc & Hh & _); [now apply wellFormed_verifyCalls | reflexivity |].
  exists b. split.
  - rewrite Hc. destruct st; reflexivity.
  - unfold getChainHeight. rewrite Hh. destruct st; reflexivity.
Qed.

(** Every block of a reachable chain carries the digest of its content. *)
Lemma reachable_digests st n b :
  reachable st n -> In b (chain st) -> digestMatches b.
Proof.
  intros H Hb. destruct (reachable_wellFormed st n H) as (_ & _ & _ & _ & _ & Hv).
  apply validate_digestMatches.
  rewrite forallb_forall in Hv. now apply Hv.
Qed.

Lemma reachable_healthy st n : reachable st n -> healthy (chain st).
Proof.
  intros H. split.
  - apply (reachable_wellFormed st n H).
  - intros b. now apply (reachable_digests st n).
Qed.

(** On the chains the calls build, the caller of [validateChain] resumes
    with an empty log. *)
Lemma reachable_awaited_report st n :
  reachable st n -> validateChainAwaited st = [].
Proof.
  intros H. destruct (reachable_wellFormed st n H) as (Hq & _ & _ & _ & _ & Hv).
  rewrite validateChainAwaited_eq by assumption.
  now apply invalidEntries_nil.
Qed.

(** Once such a chain has a second block, the log ends up non-empty: block
    1 is valid, above height zero and carries a previous hash. *)
Lemma reachable_final_report st n :
  reachable st n -> (2 <= n)%nat -> validateChainFinal st <> [].
Proof.
  intros H Hn.
  destruct (reachable_wellFormed st n H) as (Hq & _ & _ & Hlen & Hl & Hv).
  rewrite validateChainFinal_eq by assumption.
  destruct (nth_error (chain st) 1) as [b|] eqn:Hb;
    [| apply nth_error_None in Hb; lia ].
  destruct (Hl 1%nat b Hb) as [Hh [a [Ha Hp]]].
  assert (Hin : In b (chain st)) by (eapply nth_error_In; eassumption).
  assert (Hva : digestMatches a).
  { apply (reachable_digests st n); [assumption|].
    eapply nth_error_In; eassumption. }
  assert (Hvb : validate b = true)
    by (rewrite forallb_forall in Hv; now apply Hv).
  assert (Hw : In b (awaitingLinkage (chain st))).
  { unfold awaitingLinkage. apply filter_In. split; [assumption|].
    rewrite Hvb, Hh. reflexivity. }
  assert (Hf : In b (filter hasPreviousHash (awaitingLinkage (chain st)))).
  { apply filter_In. split; [assumption|].
    unfold hasPreviousHash. rewrite Hp, Hva. reflexivity. }
  intros E. apply app_eq_nil in E as [_ E]. unfold linkageEntries in E.
  apply map_eq_nil in E. rewrite E in Hf. destruct Hf.
Qed.

(** X15.  With the methods called one at a time, each promise awaited
    before the next call: in every state the construction and the calls
    reach, block 0 has height 0 and no previous hash, block [i] has height
    [i] and carries the hash of block [i-1], and after [n] appends that
    left their block on the chain the reported height is [n - 1]. *)
Theorem chain_invariants st n :
  reachable st n ->
  linked (chain st) /\
  getChainHeight st = Z.of_nat n - 1 /\
  length (chain st) = n.
Proof.
  intros H. destruct (reachable_wellFormed st n H)
    as (_ & _ & Hh & Hlen & Hl & _).
  auto.
Qed.

(** * Further properties of the methods *)

(** ** requestMessageOwnershipVerification and the window of submitStar *)

Lemma split_before_colon a rest :
  hasColon a = false ->
  split ":" (a ++ String ":" rest) = a :: split ":" rest.
Proof.
  induction a as [|c a IH]; simpl; intros H; [reflexivity|].
  apply orb_false_elim in H as [Hc Ha]. rewrite Hc, (IH Ha). reflexivity.
Qed.

Lemma isDigit_not_colon c : isDigit c = true -> Ascii.eqb c ":" = false.
Proof.
  destruct c as [[] [] [] [] [] [] [] []]; try discriminate; reflexivity.
Qed.

Lemma allDigits_no_colon s : allDigits s = true -> hasColon s = false.
Proof.
  induction s as [|c s IH]; simpl; intros H; [reflexivity|].
  apply andb_prop in H as [Hc Hs].
  now rewrite (isDigit_not_colon c Hc), (IH Hs).
Qed.

(** [parseInt] reads a text of decimal digits as the number it denotes. *)
Lemma parseInt_digits t :
  allDigits t = true -> t <> EmptyString ->
  parseInt (Some t) = Some (secondsOf t).
Proof.
  destruct t as [|c r]; [congruence|]. intros H _.
  simpl in H. apply andb_prop in H as [Hc Hr].
  unfold secondsOf.
  destruct c as [[] [] [] [] [] [] [] []]; try discriminate Hc;
    try (cbn; f_equal; now destruct (digitsValue 10 _ r)).
  (* the digit 0: the next character is not an x *)
  destruct r as [|d r]; [reflexivity|].
  simpl in Hr. apply andb_prop in Hr as [Hd _].
  destruct d as [[] [] [] [] [] [] [] []]; try discriminate Hd;
    cbn; f_equal; now destruct (digitsValue 10 _ r).
Qed.

(** The time stamp of a requested message is read back by line 142. *)
Lemma requested_timeStamp address t :
  hasColon address = false -> allDigits t = true ->
  nth_error (split ":" (requestMessageOwnershipVerification address t)) 1
  = Some t.
Proof.
  intros Ha Ht. unfold requestMessageOwnershipVerification.
  change (address ++ ":" ++ t ++ ":starRegistry")%string
    with (address ++ String ":" (t ++ String ":" "starRegistry"))%string.
  rewrite (split_before_colon address _ Ha).
  rewrite (split_before_colon t _ (allDigits_no_colon t Ht)).
  reflexivity.
Qed.

(** X1.  A message issued by [requestMessageOwnershipVerification] for an
    address without a colon, at a clock text of decimal digits, passes the
    test of line 144 of [submitStar] exactly when it is submitted at most
    300 seconds after the reading at which it was issued. *)
Theorem requested_message_window address t now :
  hasColon address = false ->
  allDigits t = true -> t <> EmptyString ->
  withinWindow (requestMessageOwnershipVerification address t) now
  = (now - secondsOf t <=? 300).
Proof.
  intros Ha Ht Hne. unfold withinWindow.
  now rewrite (requested_timeStamp address t Ha Ht), (parseInt_digits t Ht Hne).
Qed.

(** ** submitStar, outcome by outcome *)

Lemma submitStarAwaited_eq address message signature star now st :
  queue st = [] ->
  let block := newBlock (StarData address message signature star) in
  let st1 := set_verifyCalls
               (verifyCalls st ++ [(message, address, signature)]) st in
  submitStarAwaited address message signature star now st =
  if withinWindow message now then
    (afterAddBlock block now st1,
     match verify message address signature with
     | None => Rejected ValidationError
     | Some _ => Fulfilled match staged block now st1 with
                           | Some b => ReturnedBlock b
                           | None => InvalidBlockString
                           end
     end)
  else (st, Rejected TimeExpired).
Proof.
  intros Hq block st1.
  unfold submitStarAwaited, submitStar, withinWindow.
  destruct (match parseInt (nth_error (split ":" message) 1) with
            | Some t => now - t <=? 5 * 60
            | None => false
            end).
  - fold block. fold st1.
    assert (Hq1 : queue st1 = []) by (destruct st; exact Hq).
    pose proof (addBlock_settled block now st1 Hq1) as Hs.
    pose proof (addBlock_promise block now st1) as Hp.
    destruct (_addBlock block now st1) as [st2 p]. cbn [fst snd] in *.
    subst p. rewrite Hs.
    destruct (verify message address signature); [|reflexivity].
    now rewrite afterAddBlock_promise.
  - cbn [fst snd]. rewrite settle_idle by assumption. reflexivity.
Qed.

Lemma staged_time block now st b :
  staged block now st = Some b -> Block.time b = now.
Proof.
  unfold staged. destruct (height st + 1 >? 0).
  - destruct (getBlockByHeight (height st) st); intros H; inversion H;
      reflexivity.
  - intros H; inversion H; reflexivity.
Qed.

(** The block a [submitStar] inside the window appends to a chain the
    calls have built. *)
Lemma submitStar_commits address message signature star now st n :
  reachable st n ->
  withinWindow message now = true ->
  verify message address signature <> None ->
  let r := submitStarAwaited address message signature star now st in
  exists b tip,
    snd r = Fulfilled (ReturnedBlock b) /\
    chain (fst r) = chain st ++ [b] /\
    getChainHeight (fst r) = Z.of_nat n /\
    Block.height b = Z.of_nat n /\
    Block.time b = now /\
    Block.body b = encode (StarData address message signature star) /\
    last (chain st) b = tip /\ chain st <> [] /\
    Block.previousBlockHash b = Block.hash tip /\
    digestMatches b.
Proof.
  intros Hr Hw Hv r. subst r.
  pose proof (reachable_wellFormed st n Hr) as Hwf.
  assert (Hq : queue st = []) by apply Hwf.
  rewrite submitStarAwaited_eq by assumption. rewrite Hw. cbn [fst snd].
  set (block := newBlock _). set (st1 := set_verifyCalls _ st).
  destruct (afterAddBlock_commits block now st1 n)
    as (b & Hc & Hh & Hwf'); [now apply wellFormed_verifyCalls | reflexivity |].
  assert (Hs : staged block now st1 = Some b).
  { destruct (afterAddBlock_chain block now st1) as [E | (b' & Hs & _ & E)].
    - rewrite E in Hc. apply (f_equal (@length _)) in Hc.
      rewrite length_app in Hc. simpl in Hc. lia.
    - rewrite E in Hc. apply app_inv_head in Hc. now inversion Hc; subst. }
  assert (Hc1 : chain st1 = chain st) by (destruct st; reflexivity).
  assert (Hh1 : height st1 = height st) by (destruct st; reflexivity).
  destruct Hwf as (_ & Hn & Hhs & Hlen & Hl & _).
  destruct Hwf' as (_ & _ & _ & _ & Hl' & Hv').
  rewrite Hc, Hc1 in Hl', Hv'.
  destruct (exists_last (l := chain st)) as [c0 [tip Hct]];
    [intros E; rewrite E in Hlen; simpl in Hlen; lia|].
  assert (Hn0 : nth_error (chain st ++ [b]) n = Some b).
  { rewrite nth_error_app2 by lia. rewrite Hlen, Nat.sub_diag. reflexivity. }
  destruct (Hl' n b Hn0) as [Hhb Hpb].
  exists b, tip. rewrite Hs.
  destruct (verify message address signature); [|congruence].
  split; [reflexivity|]. split; [now rewrite Hc, Hc1|].
  split; [unfold getChainHeight; rewrite Hh, Hh1, Hhs; lia|].
  split; [assumption|]. split; [now apply (staged_time block now st1)|].
  split; [now apply (staged_body block now st1)|].
  split; [rewrite Hct; apply last_last|].
  split; [intros E; rewrite E in Hlen; simpl in Hlen; lia|].
  split.
  - destruct n as [|j]; [lia|]. destruct Hpb as [a [Ha Hp]].
    rewrite Hp. f_equal.
    rewrite Hct in Ha, Hlen. rewrite length_app in Hlen. simpl in Hlen.
    rewrite nth_error_app1 in Ha by (rewrite length_app; simpl; lia).
    rewrite nth_error_app2 in Ha by lia.
    replace (j - length c0)%nat with 0%nat in Ha by lia.
    simpl in Ha. congruence.
  - apply validate_digestMatches.
    rewrite forallb_app in Hv'. apply andb_prop in Hv' as [_ Hb].
    simpl in Hb. now rewrite andb_true_r in Hb.
Qed.

(** X2.  From every state the calls reach, a [submitStar] whose message
    is within the window and whose signature check does not throw is
    fulfilled with the block it appended: the block is the new last block,
    its height is the former length of the chain, it carries the clock
    reading, the encoded claim, the hash of the former last block as its
    previous hash, and the digest of its own content as its hash. *)
Theorem submitStar_fulfilled address message signature star now st n :
  reachable st n ->
  withinWindow message now = true ->
  verify message address signature <> None ->
  let r := submitStarAwaited address message signature star now st in
  exists b tip,
    snd r = Fulfilled (ReturnedBlock b) /\
    chain (fst r) = chain st ++ [b] /\
    getChainHeight (fst r) = Z.of_nat n /\
    Block.height b = Z.of_nat n /\
    Block.time b = now /\
    Block.body b = encode (StarData address message signature star) /\
    last (chain st) b = tip /\ chain st <> [] /\
    Block.previousBlockHash b = Block.hash tip /\
    digestMatches b.
Proof. apply submitStar_commits. Qed.

(** X3.  With nothing else pending, the promise of [submitStar] is never
    left pending: outside the window it is rejected with the time-expired
    error, inside the window with a throwing signature check it is
    rejected with the validation error, and otherwise it is fulfilled. *)
Theorem submitStar_outcomes address message signature star now st :
  queue st = [] ->
  let r := submitStarAwaited address message signature star now st in
  (withinWindow message now = false -> snd r = Rejected TimeExpired) /\
  (withinWindow message now = true ->
   verify message address signature = None ->
   snd r = Rejected ValidationError) /\
  (withinWindow message now = true ->
   verify message address signature <> None ->
   exists v, snd r = Fulfilled v).
Proof.
  intros Hq r. subst r. rewrite submitStarAwaited_eq by assumption.
  split; [|split].
  - intros ->. reflexivity.
  - intros -> ->. reflexivity.
  - intros -> Hv. cbn [snd].
    destruct (verify message address signature); [|congruence]. eauto.
Qed.

(** X4.  With nothing else pending, [submitStar] never removes or alters
    a block of the chain: afterwards the chain is the former chain, or the
    former chain followed by one block. *)
Theorem submitStar_append_only address message signature star now st :
  queue st = [] ->
  let st' := fst (submitStarAwaited address message signature star now st) in
  chain st' = chain st \/ exists b, chain st' = chain st ++ [b].
Proof.
  intros Hq st'. subst st'. rewrite submitStar_settled by assumption.
  unfold afterSubmitStar. destruct (withinWindow message now); [|now left].
  set (st1 := set_verifyCalls _ st).
  assert (Hc1 : chain st1 = chain st) by (destruct st; reflexivity).
  destruct (afterAddBlock_chain
              (newBlock (StarData address message signature star)) now st1)
    as [E | (b & _ & _ & E)]; rewrite E, Hc1; [now left | right; eauto].
Qed.

(** X5.  With nothing else pending, a chain on which some block fails
    [validate] accepts no block: after [_addBlock], and so after
    [submitStar], the chain is as before. *)
Theorem invalid_chain_frozen block address message signature star now st :
  queue st = [] ->
  forallb validate (chain st) = false ->
  chain (fst (addBlockAwaited block now st)) = chain st /\
  chain (fst (submitStarAwaited address message signature star now st))
  = chain st.
Proof.
  intros Hq Hv.
  assert (H : forall blk s, chain s = chain st ->
                chain (afterAddBlock blk now s) = chain st).
  { intros blk s Hs.
    destruct (afterAddBlock_chain blk now s) as [E | (b & _ & Hk & _)];
      [now rewrite E|].
    rewrite forallb_app, Hs, Hv in Hk. discriminate Hk. }
  split.
  - rewrite addBlockAwaited_eq by assumption. now apply H.
  - rewrite submitStar_settled by assumption. unfold afterSubmitStar.
    destruct (withinWindow message now); [|reflexivity].
    apply H. destruct st; reflexivity.
Qed.

(** X6.  With nothing else pending and a stored height of zero or more,
    when no block of the chain has that height in its height field the
    look-up of line 82 resolves with null and line 83 throws: the promise
    of [_addBlock] is fulfilled with the string of the catch clause, the
    chain is as before, and the stored height stays raised by one. *)
Theorem addBlock_missing_tip block now st :
  queue st = [] ->
  0 <= height st ->
  (forall b, In b (chain st) -> Block.height b <> height st) ->
  let r := addBlockAwaited block now st in
  snd r = Fulfilled InvalidBlockString /\
  chain (fst r) = chain st /\
  getChainHeight (fst r) = height st + 1.
Proof.
  intros Hq Hh Hno r. subst r. rewrite addBlockAwaited_eq by assumption.
  assert (Hs : staged block now st = None).
  { unfold staged. replace (height st + 1 >? 0) with true
      by (symmetry; apply Z.gtb_lt; lia).
    rewrite getBlockByHeight_eq, filter_none; [reflexivity|].
    intros b Hb. apply Z.eqb_neq. now apply Hno. }
  unfold afterAddBlock. rewrite Hs. cbn [fst snd].
  destruct st; repeat split.
Qed.

(** ** getBlockByHeight on the chains the calls build *)

Lemma linked_lookup c i b :
  linked c -> nth_error c i = Some b ->
  filter (fun p => Block.height p =? Z.of_nat i) c = [b].
Proof.
  intros Hl Hi.
  destruct (nth_error_split c i Hi) as (c1 & c2 & Hc & Hlen).
  rewrite Hc, filter_app. simpl.
  rewrite (linked_height c i b Hl Hi), Z.eqb_refl.
  rewrite !filter_none; [reflexivity| |].
  - intros x Hx. apply In_nth_error in Hx as [j Hj].
    assert (Hj' : nth_error c (S (length c1 + j)) = Some x).
    { rewrite Hc, nth_error_app2 by lia.
      replace (S (length c1 + j) - length c1)%nat with (S j) by lia.
      exact Hj. }
    rewrite (linked_height c _ x Hl Hj'). apply Z.eqb_neq. lia.
  - intros x Hx. apply In_nth_error in Hx as [j Hj].
    assert (Hlt : (j < length c1)%nat) by (apply nth_error_Some; congruence).
    assert (Hj' : nth_error c j = Some x)
      by (rewrite Hc, nth_error_app1; assumption).
    rewrite (linked_height c _ x Hl Hj'). apply Z.eqb_neq. lia.
Qed.

(** X7.  On every chain the calls build, [getBlockByHeight(h)] resolves
    for a height from 0 to the stored height with the block at that
    position, whose height field is [h], and for any other height with
    null. *)
Theorem getBlockByHeight_reachable st n h :
  reachable st n ->
  (0 <= h <= getChainHeight st ->
   exists b, nth_error (chain st) (Z.to_nat h) = Some b /\
             Block.height b = h /\
             getBlockByHeight h st = OneBlock b) /\
  (h < 0 \/ getChainHeight st < h -> getBlockByHeight h st = Null).
Proof.
  intros Hr. destruct (reachable_wellFormed st n Hr)
    as (_ & _ & Hh & Hlen & Hl & _).
  unfold getChainHeight. split.
  - intros Hin.
    destruct (nth_error (chain st) (Z.to_nat h)) as [b|] eqn:Hb;
      [| apply nth_error_None in Hb; lia ].
    exists b. split; [reflexivity|].
    pose proof (linked_height _ _ _ Hl Hb) as Hhb.
    rewrite Z2Nat.id in Hhb by lia. split; [assumption|].
    pose proof (linked_lookup _ _ _ Hl Hb) as Hf.
    rewrite Z2Nat.id in Hf by lia.
    now rewrite getBlockByHeight_eq, Hf.
  - intros Hout. rewrite getBlockByHeight_eq, filter_none; [reflexivity|].
    intros x Hx. apply In_nth_error in Hx as [j Hj].
    assert (Hlt : (j < length (chain st))%nat)
      by (apply nth_error_Some; congruence).
    rewrite (linked_height _ _ _ Hl Hj). apply Z.eqb_neq. lia.
Qed.

(** ** validateChain as its caller sees it *)

(** X8.  With nothing else pending, the caller that awaits
    [validateChain] resumes with an empty log exactly when the hash of
    every block of the chain is the digest of the block's content. *)
Theorem validateChain_empty_iff st :
  queue st = [] ->
  (validateChainAwaited st = [] <->
   forall b, In b (chain st) -> digestMatches b).
Proof.
  intros Hq. rewrite validateChainAwaited_eq by assumption.
  rewrite invalidEntries_nil, forallb_forall.
  split; intros H b Hb; apply validate_digestMatches; now apply H.
Qed.

Lemma invalidEntries_valid bs :
  forallb validate bs = true -> invalidEntries bs = [].
Proof. apply invalidEntries_nil. Qed.

(** X9.  With nothing else pending, when exactly one block of the chain
    fails [validate], the caller that awaits [validateChain] resumes with
    exactly one entry, the invalid-block entry of that block's height. *)
Theorem tamper_detected st before b after :
  queue st = [] ->
  chain st = before ++ b :: after ->
  forallb validate before = true ->
  forallb validate after = true ->
  validate b = false ->
  validateChainAwaited st = [BlockInvalid (Block.height b)].
Proof.
  intros Hq Hc Hb1 Hb2 Hb. rewrite validateChainAwaited_eq by assumption.
  rewrite Hc. unfold invalidEntries. rewrite filter_app. simpl. rewrite Hb.
  simpl. rewrite map_app. simpl.
  fold (invalidEntries before). fold (invalidEntries after).
  now rewrite (invalidEntries_valid before Hb1), (invalidEntries_valid after Hb2).
Qed.

(** ** Stars of other wallets *)

(** X10.  With nothing else pending, a [submitStar] for one wallet address
    leaves the stars listed for every other address as they were, when the
    body codec decodes the claim it encoded. *)
Theorem stars_of_other_wallets address other message signature star now st :
  queue st = [] ->
  address <> other ->
  decode (encode (StarData address message signature star))
    = Some (StarData address message signature star) ->
  starsAwaited other
    (fst (submitStarAwaited address message signature star now st))
  = starsAwaited other st.
Proof.
  intros Hq Hne Hdec.
  rewrite (starsAwaited_starsOf other st Hq).
  rewrite starsAwaited_starsOf by apply submitStarAwaited_quiescent.
  rewrite submitStar_settled by assumption.
  unfold afterSubmitStar. destruct (withinWindow message now); [|reflexivity].
  set (st1 := set_verifyCalls _ st).
  assert (Hc1 : chain st1 = chain st) by (destruct st; reflexivity).
  destruct (afterAddBlock_chain
              (newBlock (StarData address message signature star)) now st1)
    as [E | (b & Hs & _ & E)]; rewrite E, Hc1; [reflexivity|].
  rewrite starsOf_app. apply staged_body in Hs.
  unfold starsOf at 2. simpl. rewrite Hs. simpl. rewrite Hdec.
  apply String.eqb_neq in Hne. rewrite Hne. simpl. apply app_nil_r.
Qed.

(** ** The construction *)

(** X11.  On every state the calls reach, a further [initializeChain]
    changes nothing: the stored height is no longer -1 and no second
    genesis block is made. *)
Theorem initializeChain_again st n now :
  reachable st n -> initializeChain now st = st.
Proof.
  intros Hr. destruct (reachable_wellFormed st n Hr) as (_ & Hn & Hh & _).
  unfold initializeChain.
  replace (height st =? -1) with false; [reflexivity|].
  symmetry. apply Z.eqb_neq. lia.
Qed.

(** X12.  The constructor leaves a chain of one block at stored height 0:
    the block has height 0, no previous hash, the clock reading, the
    encoded genesis payload and the digest of its content; [validateChain]
    on that chain logs nothing, neither when its caller resumes nor
    afterwards. *)
Theorem constructor_genesis now :
  let st := newBlockchain now in
  exists g,
    chain st = [g] /\ getChainHeight st = 0 /\
    Block.height g = 0 /\ Block.previousBlockHash g = None /\
    Block.time g = now /\ Block.body g = encode GenesisData /\
    digestMatches g /\
    validateChainAwaited st = [] /\ validateChainFinal st = [].
Proof.
  intros st. subst st. exists (genesisBlock now).
  assert (Hv : validate (genesisBlock now) = true)
    by (apply validate_hashed; reflexivity).
  rewrite validateChainAwaited_eq, validateChainFinal_eq
    by (rewrite newBlockchain_eq; reflexivity).
  rewrite newBlockchain_eq. cbn [chain getChainHeight height].
  unfold invalidEntries, awaitingLinkage. simpl filter. rewrite Hv. simpl.
  repeat split.
Qed.

(** ** The microtask queue *)

(** X13.  Whatever continuations of the class are pending, the queue is
    empty after at most [budget] turns, and further turns change nothing:
    no continuation keeps the queue busy for ever. *)
Theorem microtasks_terminate st :
  queue (drain (budget st) st) = [] /\
  forall m, (budget st <= m)%nat -> drain m st = drain (budget st) st.
Proof.
  assert (H : queue (drain (budget st) st) = [])
    by (apply (drain_quiesces _ st (chainBound st)); unfold budget; lia).
  split; [exact H|]. intros m Hm. now apply drain_settled.
Qed.

(** ** The hash line 89 stores *)


(** ** An appended block is found again *)

(** X14.  From every state the calls reach, the block a [submitStar] was
    fulfilled with is found again by both queries: [getBlockByHeight] at
    the block's height resolves with that block, and [getBlockByHash] at
    the block's hash resolves with an array that holds it. *)
Theorem appended_block_found address message signature star now st n :
  reachable st n ->
  withinWindow message now = true ->
  verify message address signature <> None ->
  let r := submitStarAwaited address message signature star now st in
  exists b h bs,
    snd r = Fulfilled (ReturnedBlock b) /\
    getBlockByHeight (Block.height b) (fst r) = OneBlock b /\
    Block.hash b = Some h /\
    getBlockByHash h (fst r) = BlockArray bs /\ In b bs.
Proof.
  intros Hr Hw Hv r.
  destruct (submitStar_commits address message signature star now st n
              Hr Hw Hv)
    as (b & tip & Hp & Hc & _ & Hh & _ & _ & _ & _ & _ & Hd).
  fold r in Hp, Hc.
  pose proof (reach_submit st n address message signature star now Hr) as Hr'.
  apply reachable_wellFormed in Hr'. fold r in Hr'.
  destruct Hr' as (_ & _ & _ & _ & Hl & _).
  destruct (reachable_wellFormed st n Hr) as (_ & _ & _ & Hlen & _ & _).
  assert (Hn : nth_error (chain (fst r)) n = Some b).
  { rewrite Hc, nth_error_app2 by lia. rewrite Hlen, Nat.sub_diag.
    reflexivity. }
  exists b, (SHA256 (stringify (Block.set_hash None b))),
    (filter (fun p => option_string_eqb (Block.hash p)
                        (Some (SHA256 (stringify (Block.set_hash None b)))))
       (chain (fst r))).
  split; [assumption|]. split.
  - rewrite Hh, getBlockByHeight_eq, (linked_lookup _ _ _ Hl Hn). reflexivity.
  - split; [exact Hd|]. split; [reflexivity|].
    apply filter_In. split; [eapply nth_error_In; eassumption|].
    rewrite Hd. simpl. apply String.eqb_refl.
Qed.

End Properties.

(** * The methods on concrete chains *)

Section Runs.

Import Example.

(** C6 at an instance: the star of the example, submitted 301 seconds
    after the time stamp of its message, with a valid signature. *)
Lemma submitStar_expired_witness :
  let r := submitStar address message signature star 1691239451 fresh in
  fst r = fresh /\
  (forall st', failsWith ExpiredChallenge (promiseState (snd r) st')) /\
  verifyCalls (fst r) = verifyCalls fresh /\
  getChainHeight (fst r) = getChainHeight fresh /\
  chain (fst r) = chain fresh.
Proof.
  refine (submitStar_expired address message signature star 1691239451 fresh
            1691239150 _ _); [vm_compute; reflexivity | lia].
Defined.

(** C7 as stated fails: a message without any colon leaves the chain as
    it is, but the call is rejected with the time-expired error, not with
    an error of the malformed-message kind. *)
Lemma malformed_message_counterexample :
  let r := submitStarAwaited address "no colons here" signature star
             1691239200 fresh in
  snd r = Rejected TimeExpired /\
  ~ (failsWith MalformedMessage (snd r) /\ chain (fst r) = chain fresh).
Proof.
  split; [vm_compute; reflexivity|].
  intros [[e [_ He]] _]. exact (kindOf_not_malformed e He).
Qed.

(** C7 as the code has it, at that message. *)
Lemma submitStar_unparsed_witness :
  let r := submitStar address "no colons here" signature star 1691239200
             fresh in
  fst r = fresh /\
  (forall st', promiseState (snd r) st' = Rejected TimeExpired) /\
  verifyCalls (fst r) = verifyCalls fresh /\
  getChainHeight (fst r) = getChainHeight fresh /\
  chain (fst r) = chain fresh.
Proof.
  refine (submitStar_unparsed address "no colons here" signature star
            1691239200 fresh _); vm_compute; reflexivity.
Defined.

(** Messages of another form whose second field begins with digits pass
    the test of line 144: one without a tag, and one whose time stamp is
    followed by letters, are accepted and their block is appended. *)
Lemma submitStar_accepts_numeric_prefix :
  (let m := "anything:1691239150" in
   let r := submitStarAwaited address m (sign address m) star 1691239200
              fresh in
   exists b, snd r = Fulfilled (ReturnedBlock b) /\
             chain (fst r) = chain fresh ++ [b]) /\
  (let m := "a:1691239150abc:starRegistry" in
   let r := submitStarAwaited address m (sign address m) star 1691239200
              fresh in
   exists b, snd r = Fulfilled (ReturnedBlock b) /\
             chain (fst r) = chain fresh ++ [b]).
Proof. split; vm_compute; eexists; split; reflexivity. Qed.

(** C1 on the code.  A fresh message with a signature that does not
    verify is accepted: the promise is fulfilled with the new block, which
    is on the chain, and the height has gone from 0 to 1.  With a
    signature the check throws on, the promise is rejected with the
    validation error and the block is appended all the same. *)
Theorem submitStar_ignores_verification :
  verify message address forged = Some false /\
  (let r := submitStarAwaited address message forged star 1691239200 fresh in
   exists b, snd r = Fulfilled (ReturnedBlock b) /\
             chain (fst r) = chain fresh ++ [b] /\
             getChainHeight fresh = 0 /\ getChainHeight (fst r) = 1) /\
  verify message address illFormed = None /\
  (let r := submitStarAwaited address message illFormed star 1691239200
              fresh in
   exists b, snd r = Rejected ValidationError /\
             chain (fst r) = chain fresh ++ [b] /\
             getChainHeight (fst r) = 1).
Proof.
  split; [reflexivity|]. split.
  - vm_compute. eexists. repeat split.
  - split; [reflexivity|]. vm_compute. eexists. repeat split.
Qed.

(** C2 on the code.  On a chain whose genesis block was altered, the
    append is staged, the validation leaves its entries, the block is
    popped and the height restored; yet the promise is fulfilled with the
    block, which is not on the chain. *)
Theorem addBlock_rollback_returns_block :
  let r := submitStarAwaited address message signature star 1691239200
             tampered in
  chain (fst r) = chain tampered /\
  getChainHeight (fst r) = getChainHeight tampered /\
  arrayAt 1 (errorLogs (fst r)) = [BlockInvalid 0; PreviousHashInvalid 1] /\
  exists b, snd r = Fulfilled (ReturnedBlock b) /\ ~ In b (chain (fst r)).
Proof.
  vm_compute. repeat split. eexists. split; [reflexivity|].
  intros [H|[]]. discriminate H.
Qed.

(** C3 on the code.  On the healthy two-block chain the promise of
    [validateChain] resolves with an empty log and the log then receives
    a previous-hash entry for block 1; on the chain whose block 1 has lost
    its link to block 0 the log stays empty, where the specified report
    has a previous-hash entry for block 1. *)
Theorem validateChain_misreports :
  healthy (chain registered) /\
  specifiedReport (chain registered) = [] /\
  validateChainAwaited registered = [] /\
  validateChainFinal registered = [PreviousHashInvalid 1] /\
  specifiedReport (chain unlinked) = [PreviousHashInvalid 1] /\
  validateChainAwaited unlinked = [] /\
  validateChainFinal unlinked = [].
Proof.
  split.
  - apply (reachable_healthy registered 2).
    exact (reach_submit fresh 1 address message signature star 1691239200
             (reach_new 1691239100)).
  - vm_compute. repeat split.
Qed.

(** C8 on the code.  For a hash no block carries the method resolves
    with the empty array, and for the hash of the genesis block with a
    one-element array, not with the block. *)
Theorem getBlockByHash_resolves_array :
  getBlockByHash "no such hash" fresh = BlockArray [] /\
  exists h, Block.hash (genesisBlock 1691239100) = Some h /\
            getBlockByHash h fresh = BlockArray [genesisBlock 1691239100].
Proof. split; [reflexivity|]. eexists. split; reflexivity. Qed.

(** A [submitStar] called in the turn of the constructor, before the
    continuations of the genesis append have run, builds the same chain as
    one called afterwards: the genesis block is pushed within the
    constructor. *)
Lemma submitStar_after_constructor :
  let '(st1, _) :=
    submitStar address message signature star 1691239200
      (constructor 1691239100) in
  chain (settle st1) = chain registered /\
  getChainHeight (settle st1) = 1.
Proof. vm_compute. split; reflexivity. Qed.

(** Two calls of [submitStar] started in the same turn, the second before
    any continuation of the first has run: the second raises the height and
    then finds no block at the height it looked up, so its promise is
    fulfilled with the string of the catch clause, and the height stays one
    above the last index. *)
Lemma submitStar_same_turn :
  let '(st1, first) :=
    submitStar address message signature star 1691239200 fresh in
  let '(st2, second) :=
    submitStar address message signature star 1691239200 st1 in
  let st := settle st2 in
  promiseState first st = Fulfilled (ReturnedBlock registeredBlock) /\
  promiseState second st = Fulfilled InvalidBlockString /\
  chain st = chain registered /\
  getChainHeight st = 2.
Proof. vm_compute. repeat split. Qed.

(** X15 at an instance: the chain after one submission. *)
Lemma chain_invariants_witness :
  linked (chain registered) /\
  getChainHeight registered = Z.of_nat 2 - 1 /\
  length (chain registered) = 2%nat.
Proof.
  exact (chain_invariants registered 2
           (reach_submit fresh 1 address message signature star 1691239200
              (reach_new 1691239100))).
Defined.

(** C9 at an instance: the stars of the example address, before and
    after the submission. *)
Lemma getStarsByWalletAddress_exact_witness :
  starsAwaited address fresh = starsOf address (chain fresh) /\
  (forall b, decode (Block.body b) = Some GenesisData ->
             starsOf address [b] = []) /\
  In star
    (starsAwaited address
       (fst (submitStarAwaited address message signature star 1691239200
               fresh))).
Proof.
  assert (Hq : queue fresh = []) by (vm_compute; reflexivity).
  assert (Hd : decode (encode (StarData address message signature star))
               = Some (StarData address message signature star))
    by (vm_compute; reflexivity).
  destruct (getStarsByWalletAddress_exact address message signature star
              1691239200 fresh Hq Hd) as (H1 & H2 & H3).
  split; [exact H1|]. split; [exact H2|].
  refine (H3 _). vm_compute; reflexivity.
Defined.


(** C4 on the code.  Two calls of [submitStar] started in the same turn
    on the fresh chain.  Two appends have succeeded, the genesis block and
    the first star, and the chain is the linked two-block chain; the append
    of the second call failed after line 76 had raised the height, and the
    catch clause does not lower it as the rollback of lines 94-95 does: the
    reported height is 2, not 1. *)
Theorem same_turn_height_count :
  let '(st1, first) :=
    submitStar address message signature star 1691239200 fresh in
  let '(st2, second) :=
    submitStar address message signature star 1691239200 st1 in
  let st := settle st2 in
  promiseState first st = Fulfilled (ReturnedBlock registeredBlock) /\
  promiseState second st = Fulfilled InvalidBlockString /\
  chain st = chain registered /\
  linked (chain st) /\
  length (chain st) = 2%nat /\
  getChainHeight st = 2 /\
  getChainHeight st <> Z.of_nat 2 - 1.
Proof.
  assert (Hl : linked (chain registered)).
  { apply (reachable_wellFormed registered 2).
    exact (reach_submit fresh 1 address message signature star 1691239200
             (reach_new 1691239100)). }
  vm_compute submitStar. cbv iota beta.
  match goal with |- context [settle ?x] => set (st := settle x) end.
  assert (Hc : chain st = chain registered) by (vm_compute; reflexivity).
  split; [vm_compute; reflexivity|]. split; [vm_compute; reflexivity|].
  split; [exact Hc|]. split; [rewrite Hc; exact Hl|].
  split; [vm_compute; reflexivity|]. split; [vm_compute; reflexivity|].
  vm_compute. discriminate.
Qed.

(** C10 on the code.  After two calls of [submitStar] started in the same
    turn have completed, nothing is pending and the stored height is not
    the last index of the chain; and on a chain whose genesis block had its
    height field overwritten, where the stored height is the last index
    before the call, it no longer is after one [_addBlock]. *)
Theorem height_left_raised :
  (let '(st1, _) :=
     submitStar address message signature star 1691239200 fresh in
   let '(st2, _) :=
     submitStar address message signature star 1691239200 st1 in
   let st := settle st2 in
   queue st = [] /\ height st = 2 /\ length (chain st) = 2%nat /\
   ~ heightTracksChain st) /\
  (let r := addBlockAwaited
              (newBlock (StarData address message signature star))
              1691239200 renumbered in
   queue renumbered = [] /\ heightTracksChain renumbered /\
   snd r = Fulfilled InvalidBlockString /\
   height (fst r) = 1 /\ length (chain (fst r)) = 1%nat /\
   ~ heightTracksChain (fst r)).
Proof.
  split.
  - vm_compute. repeat split. discriminate.
  - vm_compute. repeat split. discriminate.
Qed.



(** ** The further properties at instances *)

(** X1 at an instance: the message of the example, requested at second
    1691239150 and submitted 50 seconds later. *)
Lemma requested_message_window_witness :
  withinWindow (requestMessageOwnershipVerification address "1691239150")
    1691239200
  = (1691239200 - secondsOf "1691239150" <=? 300).
Proof.
  refine (requested_message_window address "1691239150" 1691239200 _ _ _);
    [vm_compute; reflexivity | vm_compute; reflexivity | discriminate].
Defined.

(** X2 at an instance: the star of the example on the fresh chain. *)
Lemma submitStar_fulfilled_witness :
  let r := submitStarAwaited address message signature star 1691239200 fresh in
  exists b tip,
    snd r = Fulfilled (ReturnedBlock b) /\
    chain (fst r) = chain fresh ++ [b] /\
    getChainHeight (fst r) = Z.of_nat 1 /\
    Block.height b = Z.of_nat 1 /\
    Block.time b = 1691239200 /\
    Block.body b = encode (StarData address message signature star) /\
    last (chain fresh) b = tip /\ chain fresh <> [] /\
    Block.previousBlockHash b = Block.hash tip /\
    digestMatches b.
Proof.
  refine (submitStar_fulfilled address message signature star 1691239200
            fresh 1 (reach_new 1691239100) _ _);
    [vm_compute; reflexivity | vm_compute; discriminate].
Defined.

(** X3 at an instance: the star of the example on the fresh chain. *)
Lemma submitStar_outcomes_witness :
  let r := submitStarAwaited address message signature star 1691239200 fresh in
  (withinWindow message 1691239200 = false -> snd r = Rejected TimeExpired) /\
  (withinWindow message 1691239200 = true ->
   verify message address signature = None ->
   snd r = Rejected ValidationError) /\
  (withinWindow message 1691239200 = true ->
   verify message address signature <> None ->
   exists v, snd r = Fulfilled v).
Proof.
  refine (submitStar_outcomes address message signature star 1691239200
            fresh _); vm_compute; reflexivity.
Defined.

(** X4 at an instance: the star of the example on the fresh chain. *)
Lemma submitStar_append_only_witness :
  let st' := fst (submitStarAwaited address message signature star
                    1691239200 fresh) in
  chain st' = chain fresh \/ exists b, chain st' = chain fresh ++ [b].
Proof.
  refine (submitStar_append_only address message signature star 1691239200
            fresh _); vm_compute; reflexivity.
Defined.

(** X5 at an instance: the chain whose genesis body was overwritten. *)
Lemma invalid_chain_frozen_witness :
  chain (fst (addBlockAwaited
                (newBlock (StarData address message signature star))
                1691239200 tampered)) = chain tampered /\
  chain (fst (submitStarAwaited address message signature star 1691239200
                tampered)) = chain tampered.
Proof.
  refine (invalid_chain_frozen
            (newBlock (StarData address message signature star))
            address message signature star 1691239200 tampered _ _);
    vm_compute; reflexivity.
Defined.

(** X6 at an instance: the chain whose genesis height was overwritten. *)
Lemma addBlock_missing_tip_witness :
  let r := addBlockAwaited (newBlock (StarData address message signature star))
             1691239200 renumbered in
  snd r = Fulfilled InvalidBlockString /\
  chain (fst r) = chain renumbered /\
  getChainHeight (fst r) = height renumbered + 1.
Proof.
  refine (addBlock_missing_tip
            (newBlock (StarData address message signature star))
            1691239200 renumbered _ _ _).
  - vm_compute; reflexivity.
  - vm_compute; discriminate.
  - intros b Hb. vm_compute in Hb. destruct Hb as [<-|[]].
    vm_compute. discriminate.
Defined.

(** X7 at an instance: height 1 of the chain after one submission. *)
Lemma getBlockByHeight_reachable_witness :
  (0 <= 1 <= getChainHeight registered ->
   exists b, nth_error (chain registered) (Z.to_nat 1) = Some b /\
             Block.height b = 1 /\
             getBlockByHeight 1 registered = OneBlock b) /\
  (1 < 0 \/ getChainHeight registered < 1 ->
   getBlockByHeight 1 registered = Null).
Proof.
  exact (getBlockByHeight_reachable registered 2 1
           (reach_submit fresh 1 address message signature star 1691239200
              (reach_new 1691239100))).
Defined.

(** X8 at an instance: the fresh chain. *)
Lemma validateChain_empty_iff_witness :
  validateChainAwaited fresh = [] <->
  forall b, In b (chain fresh) -> digestMatches b.
Proof.
  refine (validateChain_empty_iff fresh _). vm_compute; reflexivity.
Defined.

(** X9 at an instance: the chain whose genesis body was overwritten. *)
Lemma tamper_detected_witness :
  validateChainAwaited tampered
  = [BlockInvalid
       (Block.height
          (Block.set_body "Genesis Block, edited" (genesisBlock 1691239100)))].
Proof.
  refine (tamper_detected tampered []
            (Block.set_body "Genesis Block, edited" (genesisBlock 1691239100))
            [] _ _ _ _ _); vm_compute; reflexivity.
Defined.

(** X10 at an instance: the star of the example and another wallet. *)
Lemma stars_of_other_wallets_witness :
  starsAwaited otherAddress
    (fst (submitStarAwaited address message signature star 1691239200 fresh))
  = starsAwaited otherAddress fresh.
Proof.
  refine (stars_of_other_wallets address otherAddress message signature star
            1691239200 fresh _ _ _);
    [vm_compute; reflexivity | discriminate | vm_compute; reflexivity].
Defined.

(** X11 at an instance: the fresh chain. *)
Lemma initializeChain_again_witness :
  initializeChain 1691239300 fresh = fresh.
Proof.
  exact (initializeChain_again fresh 1 1691239300 (reach_new 1691239100)).
Defined.

(** X14 at an instance: the star of the example on the fresh chain. *)
Lemma appended_block_found_witness :
  let r := submitStarAwaited address message signature star 1691239200 fresh in
  exists b h bs,
    snd r = Fulfilled (ReturnedBlock b) /\
    getBlockByHeight (Block.height b) (fst r) = OneBlock b /\
    Block.hash b = Some h /\
    getBlockByHash h (fst r) = BlockArray bs /\ In b bs.
Proof.
  refine (appended_block_found address message signature star 1691239200
            fresh 1 (reach_new 1691239100) _ _);
    [vm_compute; reflexivity | vm_compute; discriminate].
Defined.

End Runs.
